(** * maptalks.tileclip: tile reprojection pipeline

    Shallow embedding of the cross-projection pipeline of the repository
    (coverage planning, fetch cache and cancellation, resampler guard, seam
    repair, orchestration) together with the properties stated about it.

    Conventions of the embedding.
    - A JavaScript [number] that holds a coordinate is a [number]: NaN, the
      two infinities, or a finite value.  Finite values are exact rationals:
      rounding error of binary64 arithmetic and the sign of zero are not
      represented.
    - A [number] produced by [Math.floor] or [Math.round] is an [integer]:
      NaN, an infinity, or a mathematical integer.
    - A JavaScript [Map] is the list of its entries in insertion order.
    - An object used as a dictionary is a [gmap] of its own properties;
      the members it inherits from [Object.prototype] are listed in
      [JSObject].
    - Objects with identity (bitmaps, buffers, abort controllers) are
      references into an explicit store.
    - A promise is the value it settles with; effects performed on the way
      are recorded in the state that is threaded through. *)

From Stdlib Require Import ZArith QArith Qround Qpower Lia Lqa.
From stdpp Require Import base option list gmap strings.

Local Open Scope Z_scope.

(** ** LRUCache.ts *)

Module LRUCache.

(** [this.data]: the entries of the [Map], oldest insertion first. *)
Abbreviation entries T := (list (string * T)).

Section Cache.
Context {T : Type}.

(** Truthiness of a payload, as tested by [!data] and [if (removedData)]. *)
Variable truthy : T → bool.

Record t : Type := Cache { max : Z; data : entries T }.

Definition Map_has (key : string) (m : entries T) : bool :=
  bool_decide (key ∈ m.*1).

Fixpoint Map_get (key : string) (m : entries T) : option T :=
  match m with
  | [] => None
  | (k, v) :: m' => if decide (k = key) then Some v else Map_get key m'
  end.

Definition Map_delete (key : string) (m : entries T) : entries T :=
  filter (λ e, e.1 ≠ key) m.

(** [Map.prototype.set]: an existing key keeps its position. *)
Definition Map_set (key : string) (v : T) (m : entries T) : entries T :=
  if Map_has key m
  then (λ e, if decide (e.1 = key) then (key, v) else e) <$> m
  else m ++ [(key, v)].

Definition Map_size (m : entries T) : Z := Z.of_nat (length m).

Definition has (key : string) (c : t) : bool := Map_has key (data c).

(** [getAndRemove]: the payload, or [null], and the map afterwards. *)
Definition getAndRemove (key : string) (m : entries T) : option T * entries T :=
  if Map_has key m then (Map_get key m, Map_delete key m) else (None, m).

(** [get] returns the payload and leaves [this] as it was. *)
Definition get (key : string) (c : t) : option T * t :=
  if has key c then (Map_get key (data c), c) else (None, c).

(** The calls of [onRemove] made for one removed payload. *)
Definition dispose (removedData : option T) : list T :=
  match removedData with
  | Some d => if truthy d then [d] else []
  | None => []
  end.

(** The [while] loop of [shrink].  [iterator] is what is left of
    [this.data.keys()]; the entries visited are deleted as the loop goes,
    so the live iterator yields the keys the map had when the loop
    started.  Once the iterator is exhausted [item.value] stays
    [undefined], nothing is removed any more and the loop does not end:
    [None]. The second component lists the payloads handed to [onRemove]. *)
Fixpoint shrink_loop (max : Z) (iterator : list string) (m : entries T)
    : option (entries T * list T) :=
  if bool_decide (Map_size m > max) then
    match iterator with
    | [] => None
    | key :: iterator' =>
        let '(removedData, m') := getAndRemove key m in
        '(m'', disposed) ← shrink_loop max iterator' m';
        Some (m'', dispose removedData ++ disposed)
    end
  else Some (m, []).

Definition shrink (c : t) : option (t * list T) :=
  '(m, disposed) ← shrink_loop (max c) ((data c).*1) (data c);
  Some (Cache (max c) m, disposed).

(** [add].  [data] is [None] for [null]/[undefined]. *)
Definition add (key : string) (d : option T) (c : t) : option (t * list T) :=
  match d with
  | None => Some (c, [])
  | Some d =>
      if negb (truthy d) then Some (c, [])
      else if has key c then
        let c' := Cache (max c) (Map_set key d (Map_delete key (data c))) in
        if bool_decide (Map_size (data c') > max c') then shrink c'
        else Some (c', [])
      else
        let c' := Cache (max c) (Map_set key d (data c)) in
        if bool_decide (Map_size (data c') > max c') then shrink c'
        else Some (c', [])
  end.

(** [reset] and the constructor. *)
Definition reset (c : t) : t * list T := (Cache (max c) [], (data c).*2).

Definition new (max : Z) : t := Cache max [].

Definition remove (key : string) (c : t) : t * list T :=
  if has key c
  then (Cache (max c) (Map_delete key (data c)),
        match Map_get key (data c) with Some d => [d] | None => [] end)
  else (c, []).

Definition setMaxSize (max : Z) (c : t) : option (t * list T) :=
  let c' := Cache max (data c) in
  if bool_decide (Map_size (data c') > max) then shrink c'
  else Some (c', []).

Definition keys (c : t) : list string := (data c).*1.

(** The key that [shrink] would evict first, and the most recent one. *)
Definition oldest (c : t) : option string := head (keys c).
Definition newest (c : t) : option string := last (keys c).

(** Invariant of every cache built with [new] and [add]: the [Map] has no
    duplicate key and holds no falsy payload. *)
Definition wf (c : t) : Prop :=
  NoDup (keys c) ∧ Forall (λ e, truthy e.2 = true) (data c).
End Cache.
Arguments t : clear implicits.
End LRUCache.

(** ** tileget.ts: caches, cancellation groups, retrieval *)

Module TileGet.

(** Pixels of a bitmap or bytes of a buffer. *)
Definition content : Type := list Z.

(** Rejection reasons.  [FetchCancelError] and [FetchTimeoutError] are the
    two abort reasons of util.ts; [InvalidStateError] is what
    [createImageBitmap] rejects with on a closed bitmap. *)
Inductive error : Type :=
| InnerError (msg : string)
| NetWorkError (url : string)
| FetchCancelError
| FetchTimeoutError
| TransportError
| DecodeError
| InvalidStateError.

Inductive cache_kind : Type := ImageCache | BufferCache.

(** What a call does to the outside of its own promise. *)
Inductive event : Type :=
| CacheLookup (cache : cache_kind) (url : string)
| NetworkRequest (url : string) (control : nat).

(** Module state of tileget.ts plus the object store.
    [heap] maps the reference of every live ImageBitmap or ArrayBuffer to
    its content; a closed bitmap has no entry.  [aborted] holds
    [signal.reason] of every aborted controller. *)
Record state : Type := State {
  heap : gmap nat content;
  next_ref : nat;
  tileImageCache : LRUCache.t nat;
  tileBufferCache : LRUCache.t nat;
  CONTROLCACHE : gmap string (list nat);
  aborted : gmap nat error;
  next_control : nat;
  trace : list event
}.

Definition LRUCount : Z := 200.

Definition init : state :=
  State ∅ 0 (LRUCache.new LRUCount) (LRUCache.new LRUCount) ∅ ∅ 0 [].

Definition set_heap (f : gmap nat content → gmap nat content) (s : state) : state :=
  State (f (heap s)) (next_ref s) (tileImageCache s) (tileBufferCache s)
        (CONTROLCACHE s) (aborted s) (next_control s) (trace s).
Definition set_tileImageCache (c : LRUCache.t nat) (s : state) : state :=
  State (heap s) (next_ref s) c (tileBufferCache s)
        (CONTROLCACHE s) (aborted s) (next_control s) (trace s).
Definition set_tileBufferCache (c : LRUCache.t nat) (s : state) : state :=
  State (heap s) (next_ref s) (tileImageCache s) c
        (CONTROLCACHE s) (aborted s) (next_control s) (trace s).
Definition set_CONTROLCACHE (m : gmap string (list nat)) (s : state) : state :=
  State (heap s) (next_ref s) (tileImageCache s) (tileBufferCache s)
        m (aborted s) (next_control s) (trace s).
Definition set_aborted (m : gmap nat error) (s : state) : state :=
  State (heap s) (next_ref s) (tileImageCache s) (tileBufferCache s)
        (CONTROLCACHE s) m (next_control s) (trace s).
Definition log (e : event) (s : state) : state :=
  State (heap s) (next_ref s) (tileImageCache s) (tileBufferCache s)
        (CONTROLCACHE s) (aborted s) (next_control s) (trace s ++ [e]).

(** Allocation of a new object holding [c]. *)
Definition alloc (c : content) (s : state) : nat * state :=
  (next_ref s,
   State (<[next_ref s := c]> (heap s)) (S (next_ref s)) (tileImageCache s)
         (tileBufferCache s) (CONTROLCACHE s) (aborted s) (next_control s)
         (trace s)).

(** [new AbortController()]. *)
Definition newAbortController (s : state) : nat * state :=
  (next_control s,
   State (heap s) (next_ref s) (tileImageCache s) (tileBufferCache s)
         (CONTROLCACHE s) (aborted s) (S (next_control s)) (trace s)).

(** [control.abort(reason)]: the first reason stays. *)
Definition abort (control : nat) (reason : error) (s : state) : state :=
  match aborted s !! control with
  | Some _ => s
  | None => set_aborted (<[control := reason]> (aborted s)) s
  end.

(** Modelled from the spec: [disposeImage] of util.ts, the disposal hook
    that releases the payload's native resource (the bitmap is closed). *)
Definition disposeImage (image : nat) (s : state) : state :=
  set_heap (delete image) s.

(** Objects are truthy. *)
Definition truthy (r : nat) : bool := true.

(** [controlList] of a task: [CONTROLCACHE[taskId] || []]. *)
Definition group (taskId : string) (s : state) : list nat :=
  default [] (CONTROLCACHE s !! taskId).

Definition cacheFetch (taskId : string) (control : nat) (s : state) : state :=
  set_CONTROLCACHE (<[taskId := group taskId s ++ [control]]> (CONTROLCACHE s)) s.

Definition cancelFetch (taskId : string) (s : state) : state :=
  let controlList := group taskId s in
  let s := foldl (λ s control, abort control FetchCancelError s) s controlList in
  set_CONTROLCACHE (delete taskId (CONTROLCACHE s)) s.

(** [controlList.splice(controlList.indexOf(control), 1)]. *)
Fixpoint splice_first (control : nat) (controlList : list nat) : list nat :=
  match controlList with
  | [] => []
  | c :: l => if decide (c = control) then l else c :: splice_first control l
  end.

Definition finishFetch (control : nat) (s : state) : state :=
  set_CONTROLCACHE
    (filter (λ kv, kv.2 ≠ []) (splice_first control <$> CONTROLCACHE s)) s.

(** The one-shot timer of a call: [control.abort(FetchTimeoutError)]. *)
Definition timeoutFires (control : nat) (s : state) : state :=
  abort control FetchTimeoutError s.

Inductive tile_source : Type :=
  | Url (url : string)
  | Bitmap (image : nat).

Record options : Type := Options {
    __taskId : option string;
    disableCache : bool
  }.

(** [!taskId]: [undefined], [null] and the empty string are falsy. *)
Definition falsy (taskId : option string) : bool :=
  match taskId with
  | None => true
  | Some id => bool_decide (id = EmptyString)
  end.

Inductive settled : Type :=
  | Resolve (payload : nat)
  | Reject (e : error).

(** A call either settles from what is at hand or is left waiting for the
    network with its controller registered. *)
Inductive progress : Type :=
| Settled (r : settled)
| Pending (url : string) (taskId : string) (control : nat).

(** What the network answers to a pending request: a rejection (transport
    failure or abort reason) or a response, with the bitmap that
    [createImageBitmap(blob)] decodes from it, if any. *)
Inductive fetch_result : Type :=
| FetchRejected (e : error)
| FetchResponse (ok : bool) (body : content) (bitmap : option content).

(** [copyImageBitMap]: [createImageBitmap(image)] makes a new bitmap. *)
Definition copyImageBitMap (image : nat) (s : state) : settled * state :=
  match heap s !! image with
  | Some pixels => let '(r, s) := alloc pixels s in (Resolve r, s)
  | None => (Reject InvalidStateError, s)
  end.

(** [copyBuffer] resolves with its argument. *)
Definition copyBuffer (buffer : nat) (s : state) : settled * state :=
  (Resolve buffer, s).

(** The synchronous part of the executor of [fetchTile]. *)
Definition fetchTile (url : tile_source) (o : options) (s : state)
    : progress * state :=
  match url with
  | Bitmap image =>
      let '(r, s) := copyImageBitMap image s in (Settled r, s)
  | Url url =>
      match __taskId o with
      | Some taskId =>
          if falsy (Some taskId)
          then (Settled (Reject (InnerError "taskId is null")), s)
          else
            let s := log (CacheLookup ImageCache url) s in
            match (LRUCache.get url (tileImageCache s)).1 with
            | Some image =>
                let '(r, s) := copyImageBitMap image s in (Settled r, s)
            | None =>
                let '(control, s) := newAbortController s in
                let s := cacheFetch taskId control s in
                let s := log (NetworkRequest url control) s in
                (Pending url taskId control, s)
            end
      | None => (Settled (Reject (InnerError "taskId is null")), s)
      end
  end.

(** Storing a fetched payload; the hook of the image cache closes what is
    evicted, the hook of the buffer cache does nothing.  [None] when
    [shrink] does not return. *)
Definition tileImageCache_add (url : string) (image : nat) (s : state)
    : option state :=
  '(c, removed) ← LRUCache.add truthy url (Some image) (tileImageCache s);
  Some (foldl (λ s image, disposeImage image s) (set_tileImageCache c s) removed).

Definition tileBufferCache_add (url : string) (buffer : nat) (s : state)
    : option state :=
  '(c, removed) ← LRUCache.add truthy url (Some buffer) (tileBufferCache s);
  Some (set_tileBufferCache c s).

(** The promise chain behind [fetch(url, fetchOptions)] in [fetchTile].
    A response that is not ok rejects at once, and the chain still runs on
    with its body. *)
Definition fetchTile_settle (url : string) (o : options) (control : nat)
    (res : fetch_result) (s : state) : option (settled * state) :=
  match res with
  | FetchRejected e => Some (Reject e, finishFetch control s)
  | FetchResponse ok body bitmap =>
      match bitmap with
      | None =>
          Some (Reject (if ok then DecodeError else NetWorkError url),
                finishFetch control s)
      | Some pixels =>
          let '(image, s) := alloc pixels s in
          s ← (if disableCache o then Some s else tileImageCache_add url image s);
          let s := finishFetch control s in
          let '(r, s) := copyImageBitMap image s in
          Some (if ok then r else Reject (NetWorkError url), s)
      end
  end.

(** The synchronous part of the executor of [fetchTileBuffer]. *)
Definition fetchTileBuffer (url : string) (o : options) (s : state)
    : progress * state :=
  match __taskId o with
  | Some taskId =>
      if falsy (Some taskId)
      then (Settled (Reject (InnerError "taskId is null")), s)
      else
        let s := log (CacheLookup BufferCache url) s in
        match (LRUCache.get url (tileBufferCache s)).1 with
        | Some buffer =>
            let '(r, s) := copyBuffer buffer s in (Settled r, s)
        | None =>
            let '(control, s) := newAbortController s in
            let s := cacheFetch taskId control s in
            let s := log (NetworkRequest url control) s in
            (Pending url taskId control, s)
        end
  | None => (Settled (Reject (InnerError "taskId is null")), s)
  end.

Definition fetchTileBuffer_settle (url : string) (o : options) (control : nat)
    (res : fetch_result) (s : state) : option (settled * state) :=
  match res with
  | FetchRejected e => Some (Reject e, finishFetch control s)
  | FetchResponse ok body _ =>
      let '(buffer, s) := alloc body s in
      s ← (if disableCache o then Some s else tileBufferCache_add url buffer s);
      let s := finishFetch control s in
      let '(r, s) := copyBuffer buffer s in
      Some (if ok then r else Reject (NetWorkError url), s)
  end.

(** Controllers are created by the calls themselves, one per request, so
    no controller sits in two groups and all are older than the next one. *)
Definition registry_wf (s : state) : Prop :=
  (∀ T U c, c ∈ group T s → c ∈ group U s → T = U) ∧
  (∀ T c, c ∈ group T s → (c < next_control s)%nat).

(** No controller is registered twice in one group. *)
Definition registry_nodup (s : state) : Prop := ∀ T, NoDup (group T s).

(** A cache as the module keeps it: distinct keys, truthy payloads, a
    capacity that is not negative and is respected. *)
Definition cache_ok (c : LRUCache.t nat) : Prop :=
  LRUCache.wf truthy c ∧ 0 ≤ LRUCache.max c ∧
  LRUCache.Map_size (LRUCache.data c) ≤ LRUCache.max c.

(** References in use are older than the next one to be allocated. *)
Definition store_ok (s : state) : Prop :=
  (∀ r, is_Some (heap s !! r) → (r < next_ref s)%nat) ∧
  Forall (λ e, (e.2 < next_ref s)%nat) (LRUCache.data (tileImageCache s)).

(** The invariant of the module state. *)
Definition state_ok (s : state) : Prop :=
  registry_wf s ∧ registry_nodup s ∧
  cache_ok (tileImageCache s) ∧ cache_ok (tileBufferCache s) ∧ store_ok s.

End TileGet.

(** ** JavaScript numbers *)

Module JS.

Inductive number : Type :=
  | NaN
  | Inf (negative : bool)
  | Fin (q : Q).

(** Values of [Math.floor] and [Math.round]. *)
Inductive integer : Type :=
| INaN
| IInf (negative : bool)
| Int (z : Z).

Definition Infinity : number := Inf false.
Definition of_Z (z : Z) : number := Fin (inject_Z z).

Definition num (i : integer) : number :=
  match i with
  | INaN => NaN
  | IInf s => Inf s
  | Int z => of_Z z
  end.

Definition Qnegative (q : Q) : bool := negb (Qle_bool 0 q).
Definition Qzero (q : Q) : bool := Qeq_bool q 0.

Definition neg (a : number) : number :=
  match a with
  | NaN => NaN
  | Inf s => Inf (negb s)
  | Fin q => Fin (Qopp q)
  end.

Definition add (a b : number) : number :=
  match a, b with
  | NaN, _ | _, NaN => NaN
  | Inf s, Inf t => if eqb s t then Inf s else NaN
  | Inf s, Fin _ | Fin _, Inf s => Inf s
  | Fin p, Fin q => Fin (Qplus p q)
  end.

Definition sub (a b : number) : number := add a (neg b).

Definition mul (a b : number) : number :=
  match a, b with
  | NaN, _ | _, NaN => NaN
  | Inf s, Inf t => Inf (xorb s t)
  | Inf s, Fin q | Fin q, Inf s =>
      if Qzero q then NaN else Inf (xorb s (Qnegative q))
  | Fin p, Fin q => Fin (Qmult p q)
  end.

(** Division; a zero divisor is taken as [+0]. *)
Definition div (a b : number) : number :=
  match a, b with
  | NaN, _ | _, NaN => NaN
  | Inf _, Inf _ => NaN
  | Inf s, Fin q => Inf (xorb s (Qnegative q))
  | Fin _, Inf _ => Fin 0
  | Fin p, Fin q =>
      if Qzero q then (if Qzero p then NaN else Inf (Qnegative p))
      else Fin (Qdiv p q)
  end.

(** [a < b] and [a <= b]; every comparison with NaN is false. *)
Definition lt (a b : number) : bool :=
  match a, b with
  | NaN, _ | _, NaN => false
  | Inf s, Inf t => s && negb t
  | Inf s, Fin _ => s
  | Fin _, Inf t => negb t
  | Fin p, Fin q => negb (Qle_bool q p)
  end.

Definition le (a b : number) : bool :=
  match a, b with
  | NaN, _ | _, NaN => false
  | Inf s, Inf t => s || negb t
  | Inf s, Fin _ => s
  | Fin _, Inf t => negb t
  | Fin p, Fin q => Qle_bool p q
  end.

Definition Math_min (a b : number) : number :=
  match a, b with
  | NaN, _ | _, NaN => NaN
  | _, _ => if lt b a then b else a
  end.

Definition Math_max (a b : number) : number :=
  match a, b with
  | NaN, _ | _, NaN => NaN
  | _, _ => if lt a b then b else a
  end.

Definition Math_floor (a : number) : integer :=
  match a with
  | NaN => INaN
  | Inf s => IInf s
  | Fin q => Int (Qfloor q)
  end.

(** [Math.round]: to the nearest integer, halves upwards. *)
Definition Math_round (a : number) : integer :=
  match a with
  | NaN => INaN
  | Inf s => IInf s
  | Fin q => Int (Qfloor (Qplus q (1 # 2)))
  end.

(** [Math.pow(2, zoom)] for an integral zoom. *)
Definition pow2 (zoom : Z) : number := Fin (Qpower 2 zoom).

(** The same operators on integral numbers. *)
Definition isNaN (i : integer) : bool :=
  match i with INaN => true | _ => false end.

Definition ilt (i j : integer) : bool :=
  match i, j with
  | INaN, _ | _, INaN => false
  | IInf s, IInf t => s && negb t
  | IInf s, Int _ => s
  | Int _, IInf t => negb t
  | Int a, Int b => bool_decide (a < b)
  end.

Definition ile (i j : integer) : bool :=
  match i, j with
  | INaN, _ | _, INaN => false
  | IInf s, IInf t => s || negb t
  | IInf s, Int _ => s
  | Int _, IInf t => negb t
  | Int a, Int b => bool_decide (a ≤ b)
  end.

Definition imin (i j : integer) : integer :=
  match i, j with
  | INaN, _ | _, INaN => INaN
  | _, _ => if ilt j i then j else i
  end.

Definition iabs (i : integer) : integer :=
  match i with
  | INaN => INaN
  | IInf _ => IInf false
  | Int z => Int (Z.abs z)
  end.

(** [i === j]. *)
Definition strict_eq (i j : integer) : bool :=
  match i, j with
  | IInf s, IInf t => eqb s t
  | Int a, Int b => bool_decide (a = b)
  | _, _ => false
  end.

(** [lo <= v && v <= hi]. *)
Definition within (lo hi : integer) (v : Z) : Prop :=
  ile lo (Int v) = true ∧ ile (Int v) hi = true.

(** The values a loop [for (let v = lo; v <= hi; v++)] runs through, or
    [None] when the loop does not end: the counter ends on [+Infinity] or
    starts at [-Infinity], where [v++] leaves it unchanged. *)
Definition for_range (lo hi : integer) : option (list Z) :=
  match lo, hi with
  | INaN, _ | _, INaN => Some []
  | Int a, Int b => Some (seqZ a (b - a + 1))
  | Int _, IInf t => if t then Some [] else None
  | IInf s, IInf t => if s then None else if t then Some [] else None
  | IInf s, Int _ => if s then None else Some []
  end.

End JS.

(** ** Tile geometry and coverage planning (tilesystem) *)

Module Planner.
Import JS.

Definition point : Type := number * number.

(** [[minx, miny, maxx, maxy]]. *)
Definition BBOXtype : Type := number * number * number * number.

(** Coordinate reference systems handed to [gcoord.transform]. *)
Inductive CRS : Type := WebMercator | WGS84 | AMap.

(** What the planner imports: [merc] of @mapbox/sphericalmercator,
    [gcoord], and the helpers of bbox.ts and util.ts. *)
Class GeoLib : Type := {
  merc_bbox : Z → Z → Z → BBOXtype;
  merc_bbox_900913 : Z → Z → Z → BBOXtype;
  merc_forward : point → point;
  merc_inverse : point → point;
  gcoord_transform : point → CRS → CRS → point;
  lnglat2Mercator : point → point;
  bboxToPoints : BBOXtype → list point;
  pointsToBBOX : list point → BBOXtype;
  bboxOfBBOXList : list BBOXtype → BBOXtype
}.

Definition FirstRes : number := Fin (140625 # 100000).
Definition mFirstRes : number := Fin (15654303392804097 # 100000000000).
Definition TILESIZE : number := of_Z 256.
Definition ORIGIN : point := (of_Z (-180), of_Z 90).
Definition MORIGIN : point :=
  (Fin (-20037508342787 # 1000000), Fin (20037508342787 # 1000000)).

Definition get4326Res (zoom : Z) : number := div FirstRes (pow2 zoom).
Definition get3857Res (zoom : Z) : number := div mFirstRes (pow2 zoom).

Definition tile : Type := Z * Z * Z.

Record TilePlan : Type := Plan {
    tiles : list tile;
    tilesbbox : BBOXtype;
    bbox : BBOXtype;
    mbbox : BBOXtype;
    plan_x : Z;
    plan_y : Z;
    plan_z : Z
  }.

(** The running [Math.min]/[Math.max] over a list of points, started at
    [Infinity] and [-Infinity]. *)
Definition extent (points : list point) : BBOXtype :=
  foldl (λ '(minx, miny, maxx, maxy) '(x, y),
           (Math_min minx x, Math_min miny y, Math_max maxx x, Math_max maxy y))
        (Infinity, Infinity, neg Infinity, neg Infinity) points.

(** The nested loops that fill [tiles]: rows outside, columns inside. *)
Definition enumerate (minrow maxrow mincol maxcol : integer)
    (mk : Z → Z → tile) : option (list tile) :=
  rows ← for_range minrow maxrow;
  match rows with
  | [] => Some []
  | _ => cols ← for_range mincol maxcol;
         Some (row ← rows; col ← cols; [mk col row])
  end.

Section Geo.
Context {G : GeoLib}.

Definition tile4326BBOX (x y z : Z) : BBOXtype :=
  let '(orginX, orginY) := ORIGIN in
  let res := mul (get4326Res z) TILESIZE in
  let mincol := Math_floor (of_Z x) in
  let minrow := Math_floor (of_Z y) in
  let xmin := add orginX (mul (num mincol) res) in
  let xmax := add orginX (mul (add (num mincol) (of_Z 1)) res) in
  let ymin := add (neg orginY) (mul (num minrow) res) in
  let ymax := add (neg orginY) (mul (add (num minrow) (of_Z 1)) res) in
  (xmin, ymin, xmax, ymax).

(** [offsetTileBBOX] writes into [bbox]; the result is the array
    afterwards. *)
Definition offsetTileBBOX (bbox : BBOXtype) (projection : string)
    (isGCJ02 : bool) : BBOXtype :=
  if negb isGCJ02 then bbox
  else
    let points := bboxToPoints bbox in
    let newPoints :=
      (λ p, if decide (projection = "EPSG:3857")
            then gcoord_transform p WebMercator WGS84 else p) <$> points in
    let transformPoints :=
      (λ p, gcoord_transform p WGS84 AMap) <$> newPoints in
    let '(minx, miny, maxx, maxy) := extent transformPoints in
    if decide (projection = "EPSG:4326") then (minx, miny, maxx, maxy)
    else
      let points := lnglat2Mercator <$> bboxToPoints (minx, miny, maxx, maxx) in
      extent points.

(** The tile index range computed from a box:
    [(mincol, maxcol, minrow, maxrow)] after [Math.floor]. *)
Definition index_range (origin : point) (res : number) (b : BBOXtype)
    : integer * integer * integer * integer :=
  let '(orginX, orginY) := origin in
  let '(minx, miny, maxx, maxy) := b in
  (Math_floor (div (sub minx orginX) res),
   Math_floor (div (sub maxx orginX) res),
   Math_floor (div (sub orginY maxy) res),
   Math_floor (div (sub orginY miny) res)).


Definition range4326 (x y z : Z) (isGCJ02 : bool)
    : integer * integer * integer * integer :=
  let res := mul (get4326Res z) TILESIZE in
  let tileBBOX := offsetTileBBOX (merc_bbox x y z) "EPSG:4326" isGCJ02 in
  index_range ORIGIN res tileBBOX.

(** [cal4326Tiles]: the requested tile is web-mercator, the source grid
    geodetic.  [Some None] is the bare [return], [None] a tile loop that
    does not end. *)
Definition cal4326Tiles (x y z zoomOffset : Z) (isGCJ02 : bool)
    : option (option TilePlan) :=
  let '(orginX, orginY) := ORIGIN in
  let res := mul (get4326Res z) TILESIZE in
  let tileBBOX := offsetTileBBOX (merc_bbox x y z) "EPSG:4326" isGCJ02 in
  let '(mincol, maxcol, minrow, maxrow) := range4326 x y z isGCJ02 in
  if ilt maxcol mincol || ilt maxrow minrow then Some None
  else
    tiles ← enumerate minrow maxrow mincol maxcol
              (λ col row, (col - 1, row, z + zoomOffset));
    let xmin := add orginX (mul (sub (num mincol) (of_Z 1)) res) in
    let xmax := add orginX (mul (num maxcol) res) in
    let ymin := sub orginY (mul (add (num maxrow) (of_Z 1)) res) in
    let ymax := sub orginY (mul (num minrow) res) in
    let coordinates := lnglat2Mercator <$> bboxToPoints tileBBOX in
    Some (Some (Plan tiles (xmin, ymin, xmax, ymax) tileBBOX
                     (pointsToBBOX coordinates) x y z)).

Definition range3857 (x y z : Z) (isGCJ02 : bool)
    : integer * integer * integer * integer :=
  let res := mul (get3857Res z) TILESIZE in
  let tileBBOX := offsetTileBBOX (tile4326BBOX x y z) "EPSG:4326" isGCJ02 in
  let mbbox := pointsToBBOX (merc_forward <$> bboxToPoints tileBBOX) in
  index_range MORIGIN res mbbox.

(** [cal3857Tiles]: the requested tile is geodetic, the source grid
    web-mercator. *)
Definition cal3857Tiles (x y z zoomOffset : Z) (isGCJ02 : bool)
    : option (option TilePlan) :=
  let tileBBOX := offsetTileBBOX (tile4326BBOX x y z) "EPSG:4326" isGCJ02 in
  let mbbox := pointsToBBOX (merc_forward <$> bboxToPoints tileBBOX) in
  let '(mincol, maxcol, minrow, maxrow) := range3857 x y z isGCJ02 in
  if ilt maxcol mincol || ilt maxrow minrow then Some None
  else
    tiles ← enumerate minrow maxrow mincol maxcol
              (λ col row, (col, row, z + zoomOffset));
    let bboxList := (λ '(x, y, z), merc_bbox_900913 x y z) <$> tiles in
    Some (Some (Plan tiles (bboxOfBBOXList bboxList) tileBBOX mbbox x y z)).

(** The claimed web-mercator branch of the offset correction: the two
    extreme corners [(minx, miny)] and [(maxx, maxy)] of the corrected
    geodetic extent are reconverted and the box becomes their min/max. *)
Definition offsetTileBBOX_mercator_spec (bbox : BBOXtype) : BBOXtype :=
  let transformPoints :=
    (λ p, gcoord_transform (gcoord_transform p WebMercator WGS84) WGS84 AMap)
      <$> bboxToPoints bbox in
  let '(minx, miny, maxx, maxy) := extent transformPoints in
  extent (lnglat2Mercator <$> [(minx, miny); (maxx, maxy)]).
End Geo.

(** A point both coordinates of which are finite. *)
Definition finite_point (p : point) : Prop := ∃ x y, p = (Fin x, Fin y).

End Planner.

(** ** Resampler pass 2 and seam repair *)

Module Resampler.
Import JS Planner.

Record PixelSample : Type := Pixel {
    point : Planner.point;
    point1 : Planner.point;
    r : Z; g : Z; b : Z; a : Z
  }.

(** The part of the result of [tilesImageData] that pass 2 reads. *)
Record pixelsresult : Type := Pixels {
  pixels : list PixelSample;
  pixels_bbox : BBOXtype
}.

(** Width and height of the target raster, after [Math.round]. *)
Definition raster_size (pixelsresult_bbox mbbox : BBOXtype) : integer * integer :=
  let '(xmin, ymin, xmax, ymax) := mbbox in
  let ax := div (sub xmax xmin) TILESIZE in
  let ay := div (sub ymax ymin) TILESIZE in
  let '(minx, miny, maxx, maxy) := pixelsresult_bbox in
  (Math_round (div (sub maxx minx) ax), Math_round (div (sub maxy miny) ay)).

(** The guard of [transformTiles]. *)
Definition degenerate (width height : integer) : bool :=
  isNaN width || isNaN height
  || strict_eq (imin width height) (Int 0)
  || strict_eq (iabs width) (IInf false)
  || strict_eq (iabs height) (IInf false).

Section Canvas.
Context {Image : Type}.

(** The canvas work of [transformTiles] once the guard has passed:
    filling the raster, cropping the tile window, seam repair. *)
Variable rasterize : pixelsresult → BBOXtype → integer → integer → bool → Image.

(** [None] is the bare [return]. *)
Definition transformTiles (pixelsresult : pixelsresult) (mbbox : BBOXtype)
    (debug : bool) : option Image :=
  let '(width, height) := raster_size (pixels_bbox pixelsresult) mbbox in
  if degenerate width height then None
  else Some (rasterize pixelsresult mbbox width height debug).
End Canvas.

(** *** [checkBoundaryBlank] *)

(** [ImageData]: row-major RGBA bytes. *)
Record ImageData : Type := Image_Data {
  width : Z;
  height : Z;
  data : list Z
}.

(** [data[idx]] read as a number: outside the array it is [undefined],
    which is not [> 0] and is stored as 0. *)
Definition rd (data : list Z) (idx : Z) : Z :=
  if bool_decide (idx < 0) then 0 else default 0 (data !! Z.to_nat idx).

(** [data[idx] = v]: nothing is written outside the array. *)
Definition wr (data : list Z) (idx : Z) (v : Z) : list Z :=
  if bool_decide (idx < 0) then data else <[Z.to_nat idx := v]> data.

(** The values [1 .. n] of a loop [for (let i = 1; i <= n; i++)]. *)
Definition upto (n : Z) : list Z := seqZ 1 n.

(** Reading the four channels at [idx2], then writing them at [idx1]. *)
Definition copy_pixel (data : list Z) (idx1 idx2 : Z) : list Z :=
  let r := rd data idx2 in
  let g := rd data (idx2 + 1) in
  let b := rd data (idx2 + 2) in
  let a := rd data (idx2 + 3) in
  wr (wr (wr (wr data idx1 r) (idx1 + 1) g) (idx1 + 2) b) (idx1 + 3) a.

Section Repair.
Variables width height : Z.

Definition leftIsBlank (data : list Z) : bool :=
  forallb (λ row, negb (bool_decide (rd data ((width * 4) * (row - 1) + 0 + 3) > 0)))
          (upto height).

Definition colIsBlank (data : list Z) (col : Z) : bool :=
  forallb (λ row, negb (bool_decide
             (rd data ((width * 4) * (row - 1) + (col - 1) * 4 + 3) > 0)))
          (upto height).

Definition bottomIsBlank (data : list Z) : bool :=
  forallb (λ col, negb (bool_decide
             (rd data ((col - 1) * 4 + (height - 1) * width * 4 + 3) > 0)))
          (upto width).

Definition fixLeft (data : list Z) : list Z :=
  foldl (λ data row,
           let idx1 := (width * 4) * (row - 1) + 0 in
           copy_pixel data idx1 (idx1 + 4))
        data (upto height).

Definition fixBottom (data : list Z) : list Z :=
  foldl (λ data col,
           copy_pixel data ((col - 1) * 4 + (height - 1) * width * 4)
                           ((col - 1) * 4 + (height - 2) * width * 4))
        data (upto width).

Definition fixCol (data : list Z) (col1 col2 : Z) : list Z :=
  foldl (λ data row,
           copy_pixel data ((width * 4) * (row - 1) + (col1 - 1) * 4)
                           ((width * 4) * (row - 1) + (col2 - 1) * 4))
        data (upto height).

(** [colBlanks[i]]; past the end it is [undefined], which is falsy. *)
Definition at_index (colBlanks : list bool) (i : Z) : bool :=
  if bool_decide (i < 0) then false else default false (colBlanks !! Z.to_nat i).

(** One turn of the loop over [col] that repairs blank columns. *)
Definition fixStep (colBlanks : list bool) (data : list Z) (col : Z) : list Z :=
  let current := at_index colBlanks (col - 1) in
  if negb current then data
  else
    let next := at_index colBlanks col in
    let pre := at_index colBlanks (col - 1) in
    if negb next then fixCol data col (col + 1)
    else if negb pre then fixCol data col (col - 1)
    else data.

Definition repair (data : list Z) : list Z :=
  let data := if leftIsBlank data then fixLeft data else data in
  let data := if bottomIsBlank data then fixBottom data else data in
  let colBlanks := colIsBlank data <$> upto width in
  let hasColBlank := existsb id colBlanks in
  if hasColBlank then foldl (fixStep colBlanks) data (upto width) else data.

(** Seam repair as it is described: column 0 and the last row as in
    [repair]; then every blank interior column takes the next column if
    that one is not blank, else the previous one. *)
Definition fixStep_spec (colBlanks : list bool) (data : list Z) (col : Z) : list Z :=
  if negb (at_index colBlanks (col - 1)) then data
  else if negb (at_index colBlanks col) then fixCol data col (col + 1)
  else fixCol data col (col - 1).

Definition repair_spec (data : list Z) : list Z :=
  let data := if leftIsBlank data then fixLeft data else data in
  let data := if bottomIsBlank data then fixBottom data else data in
  let colBlanks := colIsBlank data <$> upto width in
  foldl (fixStep_spec colBlanks) data
        ((λ col, col + 1) <$> upto (width - 2)).
End Repair.

Definition checkBoundaryBlank (img : ImageData) : ImageData :=
  Image_Data (width img) (height img) (repair (width img) (height img) (data img)).

Definition checkBoundaryBlank_spec (img : ImageData) : ImageData :=
  Image_Data (width img) (height img) (repair_spec (width img) (height img) (data img)).

(** Column [col] (counted from 0) of a raster, as a list of RGBA pixels. *)
Definition column (img : ImageData) (col : Z) : list (Z * Z * Z * Z) :=
  (λ row, let idx := (width img * 4) * (row - 1) + col * 4 in
          (rd (data img) idx, rd (data img) (idx + 1),
           rd (data img) (idx + 2), rd (data img) (idx + 3)))
    <$> upto (height img).

Definition transparent (px : list (Z * Z * Z * Z)) : bool :=
  forallb (λ p, negb (bool_decide (p.2 > 0))) px.


(** Index of channel [ch] of the pixel at row [row], column [col] (both
    counted from 1) in a raster [width] pixels wide. *)
Definition pixel_index (width row col ch : Z) : Z :=
  (width * 4) * (row - 1) + (col - 1) * 4 + ch.

End Resampler.

(** ** Resampler pass 1: the crop of the mosaic *)

Module Sampler.
Import JS Planner.




End Sampler.

(** ** Orchestration of one reprojection request *)

Module Orchestrator.
Import JS Planner Resampler.

(** The collaborators of [tileTransform].  [World] is all the state behind
    the retrieval of one tile (caches, cancellation groups, network).
    [getTileWithMaxZoom] gives what its promise settles with; a tile that
    cannot be retrieved settles with an error. *)
Class Collaborators (Image World Output Error : Type) : Type := {
  getBlankTile : Image;
  getTileWithMaxZoom : tile → World → (Image + Error) * World;
  layoutTiles : list (tile * Image) → bool → Image;
  tilesImageData : Image → BBOXtype → BBOXtype → string → pixelsresult;
  rasterize : pixelsresult → BBOXtype → integer → integer → bool → Image;
  createImageTypeResult : Image → Output + Error
}.

Record options : Type := Options {
    x : Z; y : Z; z : Z;
    projection : string;
    zoomOffset : Z;
    errorLog : bool;
    debug : bool;
    isGCJ02 : bool
  }.

(** One request as seen from outside: the image handed to [returnImage],
    what the promise settles with, the tiles asked of
    [getTileWithMaxZoom] in order, the errors written by
    [console.error], and the world afterwards. *)
Record run (Image World Output Error : Type) : Type := Run {
  opImage : Image;
  settled : Output + Error;
  requested : list tile;
  console : list Error;
  world : World
}.
Arguments Run {_ _ _ _}.
Arguments opImage {_ _ _ _}.
Arguments settled {_ _ _ _}.
Arguments requested {_ _ _ _}.
Arguments console {_ _ _ _}.
Arguments world {_ _ _ _}.

Section Request.
Context {Image World Output Error : Type}.
Context {C : Collaborators Image World Output Error}.
Context {G : GeoLib}.

(** State of the sequential loader: [tiles] with their [tileImage] set
    so far, the requests made, the console, the world. *)
Record loading : Type := Loading {
  loaded : list (tile * Image);
  asked : list tile;
  logged : list Error;
  now : World
}.

(** [loadTile], from [result.loadCount] onwards: [todo] are the tiles
    not yet asked for. *)
Fixpoint loadTile (errorLog : bool) (todo : list tile) (st : loading) : loading :=
  match todo with
  | [] => st
  | tile :: todo =>
      let '(res, w) := getTileWithMaxZoom tile (now st) in
      let st :=
        match res with
        | inl image =>
            Loading (loaded st ++ [(tile, image)]) (asked st ++ [tile])
                    (logged st) w
        | inr error =>
            Loading (loaded st ++ [(tile, getBlankTile)]) (asked st ++ [tile])
                    (if errorLog then logged st ++ [error] else logged st) w
        end in
      loadTile errorLog todo st
  end.

Definition returnImage (opImage : Image) (st : loading)
    : run Image World Output Error :=
  Run opImage (createImageTypeResult opImage) (asked st) (logged st) (now st).

(** The choice of planner at the head of [loadTiles]; [Some None] when
    [result] stays [undefined]. *)
Definition planCoverage (o : options) : option (option TilePlan) :=
  if decide (projection o = "EPSG:4326")
  then cal4326Tiles (x o) (y o) (z o) (zoomOffset o) (isGCJ02 o)
  else if decide (projection o = "EPSG:3857")
  then cal3857Tiles (x o) (y o) (z o) (zoomOffset o) (isGCJ02 o)
  else Some None.

(** The two resampler passes on the mosaic, as called once every tile is
    loaded. *)
Definition resample (o : options) (result : TilePlan) (image : Image)
    : option Image :=
  if decide (projection o = "EPSG:4326") then
    let imageData :=
      tilesImageData image (tilesbbox result) (bbox result) (projection o) in
    transformTiles rasterize imageData (mbbox result) (debug o)
  else
    let imageData :=
      tilesImageData image (tilesbbox result) (mbbox result) (projection o) in
    transformTiles rasterize imageData (bbox result) (debug o).

(** [tileTransform]; [None] when coverage planning does not return. *)
Definition tileTransform (o : options) (w : World)
    : option (run Image World Output Error) :=
  result ← planCoverage o;
  let start := Loading [] [] [] w in
  match result with
  | None => Some (returnImage getBlankTile start)
  | Some result =>
      match tiles result with
      | [] => Some (returnImage getBlankTile start)
      | _ =>
          let st := loadTile (errorLog o) (tiles result) start in
          let image := layoutTiles (loaded st) (debug o) in
          let image1 := resample o result image in
          Some (returnImage (default getBlankTile image1) st)
      end
  end.

(** Width and height that pass 2 computes for a mosaic. *)
Definition resample_size (o : options) (result : TilePlan) (image : Image)
    : integer * integer :=
  if decide (projection o = "EPSG:4326") then
    raster_size
      (pixels_bbox (tilesImageData image (tilesbbox result) (bbox result) (projection o)))
      (mbbox result)
  else
    raster_size
      (pixels_bbox (tilesImageData image (tilesbbox result) (mbbox result) (projection o)))
      (bbox result).

(** What [getTileWithMaxZoom] settles with for each tile of a list asked in
    turn, and the image that ends up in [tile.tileImage]. *)
Fixpoint outcomes (todo : list tile) (w : World) : list (Image + Error) :=
  match todo with
  | [] => []
  | tile :: todo =>
      let '(res, w) := getTileWithMaxZoom tile w in res :: outcomes todo w
  end.

Definition tileImage (res : Image + Error) : Image :=
  match res with
  | inl image => image
  | inr _ => getBlankTile
  end.
End Request.

End Orchestrator.

(** ** Over-zoom arithmetic of [getTileWithMaxZoom] (tileget.ts) *)

Module Overzoom.
Import JS.

(** The ancestor tile to retrieve and, when the requested zoom exceeds
    [maxAvailableZoom], the window [(dxScale, dyScale, wScale, hScale)] of
    it to cut out.  Tile coordinates and zooms are integers. *)
Record slice : Type := Slice {
  tileX : Z;
  tileY : Z;
  tileZ : Z;
  scales : option (number * number * number * number)
}.

(** One turn of [while (zoom > maxAvailableZoom)]. *)
Definition parent (t : Z * Z * Z) : Z * Z * Z :=
  let '(px, py, zoom) := t in (px / 2, py / 2, zoom - 1).

Definition overzoom (x y z maxAvailableZoom : Z) : slice :=
  let zoomOffset := z - maxAvailableZoom in
  if bool_decide (zoomOffset > 0) then
    let '(px, py, zoom) := Nat.iter (Z.to_nat zoomOffset) parent (x, y, z) in
    let scale := 2 ^ zoomOffset in
    let startX := px * scale in
    let endX := startX + scale in
    let startY := py * scale in
    let endY := startY + scale in
    let '(startX, endX) :=
      if bool_decide (startX > x) then (startX - 1, endX - 1) else (startX, endX) in
    let '(startY, endY) :=
      if bool_decide (startY > y) then (startY - 1, endY - 1) else (startY, endY) in
    let dxScale := div (of_Z (x - startX)) (of_Z (endX - startX)) in
    let dyScale := div (of_Z (y - startY)) (of_Z (endY - startY)) in
    let wScale := div (of_Z 1) (of_Z (endX - startX)) in
    let hScale := div (of_Z 1) (of_Z (endY - startY)) in
    Slice px py maxAvailableZoom (Some (dxScale, dyScale, wScale, hScale))
  else Slice x y z None.

End Overzoom.

(** ** Property names every object literal inherits *)

Module JSObject.

(** The members of [Object.prototype].  On an object created by [{}],
    [o[key]] finds them when [o] has no own property [key]: each is a
    function, except [__proto__], which reads as [Object.prototype] itself.
    None of them is enumerated by [for ... in], and [delete o[key]] does not
    touch them. *)
Definition Object_prototype : list string :=
  ["constructor"; "hasOwnProperty"; "isPrototypeOf"; "propertyIsEnumerable";
   "toLocaleString"; "toString"; "valueOf"; "__proto__";
   "__defineGetter__"; "__defineSetter__";
   "__lookupGetter__"; "__lookupSetter__"]%string.

(** What [o[key]] reads. *)
Inductive slot (A : Type) : Type :=
| Own (a : A)
| Inherited
| Undefined.
Arguments Own {A} a.
Arguments Inherited {A}.
Arguments Undefined {A}.

Definition read {A : Type} (o : gmap string A) (key : string) : slot A :=
  match o !! key with
  | Some a => Own a
  | None =>
      if bool_decide (key ∈ Object_prototype) then Inherited else Undefined
  end.

End JSObject.

(** ** clip.ts: masks and clipping *)

Module Clip.
Import JS.

(** A GeoJSON feature as far as the module reads it: [geometry.type],
    the number of entries of [geometry.coordinates], and [bbox]. *)
Record feature : Type := Feature {
  geometry_type : option string;
  coordinates_length : nat;
  feature_bbox : option Planner.BBOXtype
}.

Inductive result (A : Type) : Type :=
| Ok (a : A)
| Err (message : string).
Arguments Ok {A} a.
Arguments Err {A} message.

(** [isPolygon]; [None] is a missing feature. *)
Definition isPolygon (f : option feature) : bool :=
  match f with
  | None => false
  | Some f =>
      match geometry_type f with
      | Some type =>
          bool_decide (type = "Polygon"%string)
          || bool_decide (type = "MultiPolygon"%string)
      | None => false
      end
  end.

Definition isEPSG3857 (projection : string) : bool :=
  bool_decide (projection = "EPSG:3857"%string).

Section Registry.
(** [geojsonbbox] of @maptalks/geojson-bbox. *)
Variable geojsonbbox : feature → option Planner.BBOXtype.

(** [feature.bbox = feature.bbox || geojsonbbox(feature)]. *)
Definition checkGeoJSONFeatureBBOX (f : feature) : feature :=
  Feature (geometry_type f) (coordinates_length f)
          (match feature_bbox f with Some b => Some b | None => geojsonbbox f end).

(** [injectMask]: the value returned and [GeoJSONCache] afterwards.  The
    test [GeoJSONCache[maskId]] is truthy for a registered mask and for an
    inherited member alike. *)
Definition injectMask (maskId : string) (geojson : option feature)
    (GeoJSONCache : gmap string feature) : result feature * gmap string feature :=
  match geojson with
  | Some f =>
      if negb (isPolygon geojson)
      then (Err "geojson.feature is not Polygon", GeoJSONCache)
      else
        match JSObject.read GeoJSONCache maskId with
        | JSObject.Undefined =>
            let f := checkGeoJSONFeatureBBOX f in
            (Ok f, <[maskId := f]> GeoJSONCache)
        | _ =>
            (Err ("the" +:+ maskId +:+ " geojson Already exists"), GeoJSONCache)
        end
  | None => (Err "geojson.feature is not Polygon", GeoJSONCache)
  end.

Definition removeMask (maskId : string) (GeoJSONCache : gmap string feature)
    : gmap string feature :=
  delete maskId GeoJSONCache.
End Registry.


(** The options of [clip]; [None] and the empty string are falsy, and so is
    a [tileSize] of 0. *)
Record options (Image : Type) : Type := Options {
  tile : option Image;
  tileBBOX : option Planner.BBOXtype;
  projection : option string;
  tileSize : option Z;
  maskId : option string
}.
Arguments Options {Image}.
Arguments tile {Image}.
Arguments tileBBOX {Image}.
Arguments projection {Image}.
Arguments tileSize {Image}.
Arguments maskId {Image}.

Definition truthy_string (s : option string) : option string :=
  match s with
  | Some s => if bool_decide (s = EmptyString) then None else Some s
  | None => None
  end.

Definition truthy_size (n : option Z) : option Z :=
  match n with
  | Some n => if bool_decide (n = 0) then None else Some n
  | None => None
  end.

Section Clipping.
Context {Image : Type}.
(** [getCanvas(tileSize)] tells whether an OffscreenCanvas is at hand;
    [bboxIntersect] is the test of bbox.ts; [cut] stands for the polygon
    work on a mask that meets the tile (lineclip, imageClip). *)
Variable getCanvas : Z → bool.
Variable getBlankTile : Z → Image.
Variable bboxIntersect : Planner.BBOXtype → Planner.BBOXtype → bool.
Variable cut : feature → Image → Planner.BBOXtype → string → Z → Image.

(** [clip], up to the image handed to [returnImage].  An inherited member
    read as [feature] is truthy and has no [bbox]. *)
Definition clip (o : options Image) (GeoJSONCache : gmap string feature)
    : result Image :=
  match tile o with
  | None => Err "tile is null.It should be a ImageBitmap"
  | Some tile =>
  match tileBBOX o with
  | None => Err "tileBBOX is null"
  | Some tileBBOX =>
  match truthy_string (projection o) with
  | None => Err "projection is null"
  | Some projection =>
  match truthy_size (tileSize o) with
  | None => Err "tileSize is null"
  | Some tileSize =>
  match truthy_string (maskId o) with
  | None => Err "maskId is null"
  | Some maskId =>
  match JSObject.read GeoJSONCache maskId with
  | JSObject.Undefined => Err ("not find mask by maskId:" +:+ maskId)
  | found =>
      if negb (getCanvas tileSize)
      then Err "not find canvas.The current environment does not support OffscreenCanvas"
      else
        match found with
        | JSObject.Own feature =>
            match feature_bbox feature with
            | None => Ok tile
            | Some bbox =>
                if bool_decide (coordinates_length feature = 0%nat) then Ok tile
                else if negb (bboxIntersect bbox tileBBOX)
                     then Ok (getBlankTile tileSize)
                     else Ok (cut feature tile tileBBOX projection tileSize)
            end
        | _ => Ok tile
        end
  end end end end end end.
End Clipping.

(** [a !== b] on numbers: NaN differs from everything, itself included. *)
Definition strict_ne (a b : number) : bool :=
  match a, b with
  | Inf s, Inf t => negb (eqb s t)
  | Fin p, Fin q => negb (Qeq_bool p q)
  | _, _ => true
  end.

(** [validateClipRing] of [clip]: a clipped ring is kept when it is not
    empty and its box has an extent in both directions. *)
Definition validateClipRing (result : list Planner.point) : bool :=
  match result with
  | [] => false
  | _ =>
      let '(minx, maxx, miny, maxy) :=
        foldl (λ '(minx, maxx, miny, maxy) '(x, y),
                 (Math_min x minx, Math_max x maxx, Math_min y miny, Math_max y maxy))
              (Infinity, neg Infinity, Infinity, neg Infinity) result in
      strict_ne minx maxx && strict_ne miny maxy
  end.

End Clip.

(** ** Concrete inputs and collaborators used to exercise the model *)

Module Examples.
Import JS Planner Resampler Orchestrator.

(** Payloads that are numbers: 0 is falsy. *)
Definition nonzero (z : Z) : bool := negb (bool_decide (z = 0)).

(** A cache of capacity 2 after [add("a", 1)] and [add("b", 2)]. *)
Definition cache_ab : LRUCache.t Z :=
  LRUCache.Cache 2 [("a"%string, 1); ("b"%string, 2)].

(** Retrieval options of two tasks. *)
Definition task_T : TileGet.options := TileGet.Options (Some "T"%string) false.
Definition task_U : TileGet.options := TileGet.Options (Some "U"%string) false.
Definition no_task : TileGet.options := TileGet.Options None false.

(** Two requests in flight, one of task T and one of task U. *)
Definition two_pending : TileGet.state :=
  (TileGet.fetchTile (TileGet.Url "b") task_U
     (TileGet.fetchTile (TileGet.Url "a") task_T TileGet.init).2).2.

(** The buffer cache after one buffer was fetched for ["u"] and stored. *)
Definition buffer_cached : TileGet.state :=
  let s := (TileGet.fetchTileBuffer "u" task_T TileGet.init).2 in
  default s
    (snd <$> TileGet.fetchTileBuffer_settle "u" task_T 0
               (TileGet.FetchResponse true [1; 2; 3] None) s).

(** The two extreme corners of a box, and a linear stand-in for the
    forward projection (degrees to metres along the equator). *)
Definition corners (b : BBOXtype) : list Planner.point :=
  let '(minx, miny, maxx, maxy) := b in [(minx, miny); (maxx, maxy)].

Definition equator_scale (p : Planner.point) : Planner.point :=
  let k := Fin (20037508342787 # 180000000) in (mul p.1 k, mul p.2 k).

(** A projection library whose [merc.bbox] is the geodetic box of the
    web-mercator tile (0, 0, 0), with no national offset. *)
Definition world_geo : GeoLib := {|
  merc_bbox := λ _ _ _,
    (of_Z (-180), Fin (-850511288 # 10000000), of_Z 180, Fin (850511288 # 10000000));
  merc_bbox_900913 := λ _ _ _, (fst MORIGIN, fst MORIGIN, snd MORIGIN, snd MORIGIN);
  merc_forward := equator_scale;
  merc_inverse := λ p, p;
  gcoord_transform := λ p _ _, p;
  lnglat2Mercator := equator_scale;
  bboxToPoints := corners;
  pointsToBBOX := extent;
  bboxOfBBOXList := λ l, extent (l ≫= corners)
|}.


(** A library in which every projection is the identity. *)
Definition plain_geo : GeoLib := {|
  merc_bbox := λ _ _ _, (of_Z 0, of_Z 0, of_Z 2, of_Z 1);
  merc_bbox_900913 := λ _ _ _, (of_Z 0, of_Z 0, of_Z 2, of_Z 1);
  merc_forward := λ p, p;
  merc_inverse := λ p, p;
  gcoord_transform := λ p _ _, p;
  lnglat2Mercator := λ p, p;
  bboxToPoints := corners;
  pointsToBBOX := extent;
  bboxOfBBOXList := λ l, extent (l ≫= corners)
|}.

(** Collaborators over images that are numbers (0 is the blank tile): tiles
    with a negative column cannot be retrieved, the mosaic adds the images
    up, and no pixel of the mosaic falls inside the footprint, so pass 1
    returns the empty extent. *)
Definition toy_pipeline : Collaborators Z unit Z TileGet.error := {|
  getBlankTile := 0;
  getTileWithMaxZoom := λ t w,
    (if bool_decide (t.1.1 < 0) then inr (TileGet.NetWorkError "tile")
     else inl 7, w);
  layoutTiles := λ l _, foldr (λ e acc, e.2 + acc) 0 l;
  tilesImageData := λ _ _ _ _, Pixels [] (extent []);
  rasterize := λ _ _ _ _ _, 1;
  createImageTypeResult := inl
|}.

Definition request_000 (projection : string) : options :=
  Options 0 0 0 projection 0 false false false.

(** A 4×4 raster: column 0 opaque red, columns 1 and 2 fully transparent,
    column 3 opaque blue. *)
Definition seam_row : list Z :=
  [255; 0; 0; 255;  0; 0; 0; 0;  0; 0; 0; 0;  0; 0; 255; 255].

Definition seam_input : ImageData :=
  Image_Data 4 4 (seam_row ++ seam_row ++ seam_row ++ seam_row).

(** An empty cache of capacity -1. *)
Definition cache_negative : LRUCache.t Z := LRUCache.Cache (-1) [].

(** A 2×2 raster of opaque pixels. *)
Definition opaque_input : ImageData :=
  Image_Data 2 2 [255; 0; 0; 255;  0; 255; 0; 255;
                  0; 0; 255; 255;  9; 9; 9; 255].

(** A polygon that carries no [bbox], a second one, a [geojsonbbox] that
    answers with the unit box, and a canvas in which clipping adds 1 to an
    image that is a number. *)
Definition square : Clip.feature := Clip.Feature (Some "Polygon"%string) 1 None.

Definition island : Clip.feature :=
  Clip.Feature (Some "MultiPolygon"%string) 2 None.

Definition unit_box (f : Clip.feature) : option BBOXtype :=
  Some (of_Z 0, of_Z 0, of_Z 1, of_Z 1).

Definition clip_request (id : string) : Clip.options Z :=
  Clip.Options (Some 7) (Some (of_Z 0, of_Z 0, of_Z 2, of_Z 2))
               (Some "EPSG:4326"%string) (Some 256) (Some id).

Definition toy_clip : Clip.options Z → gmap string Clip.feature → Clip.result Z :=
  Clip.clip (λ _, true) (λ _, 0) (λ _ _, true) (λ _ image _ _ _, image + 1).

End Examples.

(** * Properties *)

(** ** LRUCache *)

Section LRUCacheFacts.
Import LRUCache.
Context {T : Type} (truthy : T → bool).
Implicit Types (m : entries T) (c : LRUCache.t T) (key : string).

Lemma Map_has_true key m : Map_has key m = true ↔ key ∈ m.*1.
Proof. unfold Map_has. apply bool_decide_eq_true. Qed.

Lemma Map_has_false key m : Map_has key m = false ↔ key ∉ m.*1.
Proof. unfold Map_has. apply bool_decide_eq_false. Qed.

Lemma Map_delete_absent key m : key ∉ m.*1 → Map_delete key m = m.
Proof.
  unfold Map_delete. induction m as [|[k v] m IH]; intros Hk; [done|].
  rewrite fmap_cons, not_elem_of_cons in Hk. destruct Hk as [Hne Hk].
  simpl in Hne. rewrite filter_cons_True by (simpl; congruence).
  by rewrite IH.
Qed.

Lemma Map_delete_head key v m :
  key ∉ m.*1 → Map_delete key ((key, v) :: m) = m.
Proof.
  intros Hk. unfold Map_delete. rewrite filter_cons_False by (simpl; tauto).
  by apply Map_delete_absent.
Qed.



(** One entry over capacity: the loop of [shrink] removes the entry at the
    head of the insertion order and nothing else. *)
Lemma shrink_loop_one (max : Z) k0 v0 m :
  k0 ∉ m.*1 → Map_size m ≤ max → Map_size ((k0, v0) :: m) > max →
  shrink_loop truthy max (k0 :: m.*1) ((k0, v0) :: m)
  = Some (m, dispose truthy (Some v0)).
Proof.
  intros Hk Hle Hgt. cbn [shrink_loop].
  rewrite bool_decide_eq_true_2 by done.
  unfold getAndRemove.
  replace (Map_has k0 ((k0, v0) :: m)) with true
    by (symmetry; apply Map_has_true; rewrite fmap_cons; left).
  rewrite Map_delete_head by done. cbn [Map_get]. rewrite decide_True by done.
  destruct (m.*1) as [|k1 it]; cbn [shrink_loop];
    rewrite bool_decide_eq_false_2 by lia; simpl; by rewrite app_nil_r.
Qed.



Lemma add_over_capacity c key d :
  wf truthy c → Map_size (data c) = max c →
  has key c = false → truthy d = true →
  ∃ k0 v0 rest,
    data c ++ [(key, d)] = (k0, v0) :: rest ∧
    add truthy key (Some d) c = Some (Cache (max c) rest, [v0]).
Proof.
  intros [Hnd Hty] Hsz Hhas Hd.
  apply Map_has_false in Hhas.
  assert (Hnd' : NoDup ((data c ++ [(key, d)]).*1)).
  { rewrite fmap_app. apply NoDup_app. split; [done|]. split.
    - intros k Hk Hk'. apply list_elem_of_singleton in Hk'. by subst.
    - apply NoDup_singleton. }
  assert (Hty' : Forall (λ e, truthy e.2 = true) (data c ++ [(key, d)])).
  { apply Forall_app. split; [done|]. by apply Forall_singleton. }
  assert (Hlen : Map_size (data c ++ [(key, d)]) = max c + 1).
  { unfold Map_size in *. rewrite length_app. simpl. lia. }
  destruct (data c ++ [(key, d)]) as [|[k0 v0] rest] eqn:Hl.
  { unfold Map_size in Hlen. simpl in Hlen. unfold Map_size in Hsz. lia. }
  exists k0, v0, rest. split; [done|].
  unfold add. rewrite Hd. cbn [negb].
  unfold has. replace (Map_has key (data c)) with false
    by (symmetry; by apply Map_has_false).
  unfold Map_set. replace (Map_has key (data c)) with false
    by (symmetry; by apply Map_has_false).
  cbn [data max]. rewrite Hl, bool_decide_eq_true_2 by lia.
  unfold shrink. cbn [data max].
  rewrite fmap_cons in Hnd'. apply NoDup_cons in Hnd' as [Hk0 _].
  rewrite fmap_cons. cbn [fst].
  rewrite shrink_loop_one; [| done | | lia].
  - simpl. apply Forall_cons in Hty' as [Hv0 _]. simpl in Hv0. by rewrite Hv0.
  - unfold Map_size in *. simpl in Hlen. lia.
Qed.

End LRUCacheFacts.



(** ** tileget: cancellation groups and retrieval *)

Section TileGetFacts.
Import TileGet.
Implicit Types (s : state) (T U : string) (c control : nat).

Lemma abort_registry control e s :
  CONTROLCACHE (abort control e s) = CONTROLCACHE s ∧
  next_control (abort control e s) = next_control s.
Proof. unfold abort. by destruct (aborted s !! control). Qed.


Lemma abort_all_registry e l s :
  CONTROLCACHE (foldl (λ s control, abort control e s) s l) = CONTROLCACHE s ∧
  next_control (foldl (λ s control, abort control e s) s l) = next_control s.
Proof.
  revert s. induction l as [|c l IH]; intros s; cbn [foldl]; [done|].
  destruct (IH (abort c e s)) as [-> ->]. apply abort_registry.
Qed.


Lemma group_cacheFetch T control s U :
  group U (cacheFetch T control s) =
  if decide (U = T) then group U s ++ [control] else group U s.
Proof.
  unfold cacheFetch, group. cbn [set_CONTROLCACHE CONTROLCACHE].
  destruct (decide (U = T)) as [->|Hne].
  - by rewrite lookup_insert_eq.
  - by rewrite lookup_insert_ne.
Qed.

Lemma registry_wf_init : registry_wf init.
Proof.
  split; intros T; unfold group, init; cbn [CONTROLCACHE]; rewrite lookup_empty; simpl.
  - intros U c H. by apply elem_of_nil in H.
  - intros c H. by apply elem_of_nil in H.
Qed.

(** Registering a controller that is newer than all registered ones keeps
    the groups disjoint. *)
Lemma registry_wf_register T s :
  registry_wf s →
  registry_wf (cacheFetch T (next_control s) (newAbortController s).2).
Proof.
  intros [Hdisj Hlt].
  assert (Hg : ∀ U, group U (newAbortController s).2 = group U s) by done.
  split.
  - intros T1 T2 c. rewrite !group_cacheFetch, !Hg.
    destruct (decide (T1 = T)) as [->|H1], (decide (T2 = T)) as [->|H2]; try done.
    + rewrite elem_of_app, list_elem_of_singleton. intros [H | ->] H'.
      * by eapply Hdisj.
      * apply Hlt in H'. lia.
    + rewrite elem_of_app, list_elem_of_singleton. intros H' [H | ->].
      * by eapply Hdisj.
      * apply Hlt in H'. lia.
    + apply Hdisj.
  - intros U c. rewrite group_cacheFetch, Hg.
    cbn [newAbortController snd next_control cacheFetch set_CONTROLCACHE].
    destruct (decide (U = T)) as [->|H1].
    + rewrite elem_of_app, list_elem_of_singleton.
      intros [H|Hc]; [apply Hlt in H|]; lia.
    + intros H. apply Hlt in H. lia.
Qed.

Lemma registry_wf_frame s s' :
  CONTROLCACHE s' = CONTROLCACHE s → next_control s' = next_control s →
  registry_wf s → registry_wf s'.
Proof.
  intros HC Hn [Hdisj Hlt].
  assert (Hg : ∀ U, group U s' = group U s) by (intros U; unfold group; by rewrite HC).
  split.
  - intros T U c. rewrite !Hg. apply Hdisj.
  - intros T c. rewrite Hg, Hn. apply Hlt.
Qed.

Lemma copyImageBitMap_registry image s :
  CONTROLCACHE (copyImageBitMap image s).2 = CONTROLCACHE s ∧
  next_control (copyImageBitMap image s).2 = next_control s.
Proof. unfold copyImageBitMap. by destruct (heap s !! image). Qed.


Lemma registry_wf_fetchTileBuffer url o s :
  registry_wf s → registry_wf (fetchTileBuffer url o s).2.
Proof.
  intros Hwf. unfold fetchTileBuffer.
  destruct (__taskId o) as [taskId|]; [|done].
  destruct (falsy (Some taskId)); [done|].
  destruct (LRUCache.get url (tileBufferCache (log (CacheLookup BufferCache url) s))).1
    as [buffer|].
  - simpl. by eapply registry_wf_frame.
  - cbn [newAbortController snd].
    apply (registry_wf_frame (cacheFetch taskId (next_control s) (newAbortController s).2));
      [done..|].
    by apply registry_wf_register.
Qed.


(** C10.  With [options.__taskId] missing or falsy, [fetchTile] on a url and
    [fetchTileBuffer] settle at once with the rejection 'taskId is null';
    the state is untouched: no cache lookup, no controller, no request. *)
Theorem missing_taskId_rejects_first s url o :
  falsy (__taskId o) = true →
  fetchTile (Url url) o s = (Settled (Reject (InnerError "taskId is null")), s) ∧
  fetchTileBuffer url o s = (Settled (Reject (InnerError "taskId is null")), s).
Proof.
  intros Hf. unfold fetchTile, fetchTileBuffer.
  destruct (__taskId o) as [taskId|]; [|done]. by rewrite Hf.
Qed.

(** A hit of the image cache resolves with a bitmap that did not exist
    before, holding the pixels of the cached one; the cache keeps its own. *)
Lemma fetchTile_hit_duplicates s url o taskId image pixels :
  __taskId o = Some taskId → taskId ≠ EmptyString →
  (LRUCache.get url (tileImageCache s)).1 = Some image →
  heap s !! image = Some pixels →
  ∃ s', fetchTile (Url url) o s = (Settled (Resolve (next_ref s)), s') ∧
        heap s' = <[next_ref s := pixels]> (heap s) ∧
        tileImageCache s' = tileImageCache s ∧
        trace s' = trace s ++ [CacheLookup ImageCache url].
Proof.
  intros Ht Hne Hget Hheap. unfold fetchTile. rewrite Ht.
  cbn [falsy]. rewrite bool_decide_eq_false_2 by done.
  unfold log at 1. cbn [tileImageCache]. rewrite Hget.
  unfold copyImageBitMap, log. cbn [heap]. rewrite Hheap. cbn [alloc].
  eexists. split; [reflexivity|]. done.
Qed.

(** C6, buffer cache.  A hit of the buffer cache resolves with the very
    object the cache holds: [copyBuffer] hands its argument on. *)
Theorem fetchTileBuffer_hit_exposes_cached_buffer s url o taskId buffer :
  __taskId o = Some taskId → taskId ≠ EmptyString →
  (LRUCache.get url (tileBufferCache s)).1 = Some buffer →
  fetchTileBuffer url o s
  = (Settled (Resolve buffer), log (CacheLookup BufferCache url) s).
Proof.
  intros Ht Hne Hget. unfold fetchTileBuffer. rewrite Ht.
  cbn [falsy]. rewrite bool_decide_eq_false_2 by done.
  unfold log at 1. cbn [tileBufferCache]. by rewrite Hget.
Qed.
End TileGetFacts.


Lemma missing_taskId_rejects_first_witness :
  TileGet.fetchTile (TileGet.Url "a") Examples.no_task Examples.two_pending
  = (TileGet.Settled (TileGet.Reject (TileGet.InnerError "taskId is null")),
     Examples.two_pending) ∧
  TileGet.fetchTileBuffer "a" Examples.no_task Examples.two_pending
  = (TileGet.Settled (TileGet.Reject (TileGet.InnerError "taskId is null")),
     Examples.two_pending).
Proof.
  apply (missing_taskId_rejects_first Examples.two_pending "a" Examples.no_task).
  reflexivity.
Defined.

Lemma fetchTileBuffer_hit_exposes_cached_buffer_witness :
  TileGet.fetchTileBuffer "u" Examples.task_T Examples.buffer_cached
  = (TileGet.Settled (TileGet.Resolve 0%nat),
     TileGet.log (TileGet.CacheLookup TileGet.BufferCache "u") Examples.buffer_cached).
Proof.
  apply (fetchTileBuffer_hit_exposes_cached_buffer
           Examples.buffer_cached "u" Examples.task_T "T" 0%nat).
  - reflexivity.
  - discriminate.
  - vm_compute. reflexivity.
Defined.

(** ** Coverage planning *)

Section PlannerFacts.
Import JS Planner.
Context {G : GeoLib}.

Lemma for_range_within lo hi l :
  for_range lo hi = Some l → ∀ v, v ∈ l ↔ within lo hi v.
Proof.
  unfold within.
  destruct lo as [|s|a], hi as [|t|b]; simpl; intros Hl v;
    try (injection Hl as <-); try discriminate;
    try (split; [intros H; by apply elem_of_nil in H | intros [? ?]; discriminate]).
  - destruct s, t; try discriminate. injection Hl as <-.
    split; [intros H; by apply elem_of_nil in H | intros [? ?]; discriminate].
  - destruct s; try discriminate. injection Hl as <-.
    split; [intros H; by apply elem_of_nil in H | intros [? ?]; discriminate].
  - destruct t; try discriminate. injection Hl as <-.
    split; [intros H; by apply elem_of_nil in H | intros [? ?]; discriminate].
  - rewrite elem_of_seqZ, !bool_decide_eq_true. lia.
Qed.

Lemma enumerate_within minrow maxrow mincol maxcol mk ts :
  enumerate minrow maxrow mincol maxcol mk = Some ts →
  ∀ t, t ∈ ts ↔
       ∃ col row, t = mk col row ∧ within mincol maxcol col ∧ within minrow maxrow row.
Proof.
  unfold enumerate. destruct (for_range minrow maxrow) as [rows|] eqn:Hr; [|done].
  simpl. pose proof (for_range_within _ _ _ Hr) as Hrows.
  destruct rows as [|r0 rows'] eqn:Hrs.
  - intros [= <-] t. split; [intros H; by apply elem_of_nil in H|].
    intros (col & row & _ & _ & Hrow). apply Hrows in Hrow. by apply elem_of_nil in Hrow.
  - rewrite <- Hrs in *. clear Hrs.
    destruct (for_range mincol maxcol) as [cols|] eqn:Hc; [|done].
    simpl. pose proof (for_range_within _ _ _ Hc) as Hcols.
    intros [= <-] t. rewrite list_elem_of_bind. split.
    + intros (row & Ht & Hrow). apply list_elem_of_bind in Ht as (col & Ht & Hcol).
      apply list_elem_of_singleton in Ht. exists col, row.
      split; [done|]. split; [by apply Hcols | by apply Hrows].
    + intros (col & row & -> & Hcol & Hrow). exists row. split; [|by apply Hrows].
      apply list_elem_of_bind. exists col. split; [by left | by apply Hcols].
Qed.

Lemma enumerate_finite r0 r1 c0 c1 mk :
  r0 ≤ r1 →
  enumerate (Int r0) (Int r1) (Int c0) (Int c1) mk =
  Some (row ← seqZ r0 (r1 - r0 + 1); col ← seqZ c0 (c1 - c0 + 1); [mk col row]).
Proof.
  intros Hr. unfold enumerate. cbn [for_range]. simpl.
  destruct (seqZ r0 (r1 - r0 + 1)) as [|r rows] eqn:Hs; [|done].
  apply (f_equal length) in Hs. rewrite length_seqZ in Hs. simpl in Hs. lia.
Qed.

Lemma cal4326Tiles_tiles x y z zoomOffset isGCJ02 plan mincol maxcol minrow maxrow :
  cal4326Tiles x y z zoomOffset isGCJ02 = Some (Some plan) →
  range4326 x y z isGCJ02 = (mincol, maxcol, minrow, maxrow) →
  enumerate minrow maxrow mincol maxcol (λ col row, (col - 1, row, z + zoomOffset))
  = Some (tiles plan).
Proof.
  unfold cal4326Tiles. cbn [ORIGIN]. intros Hp Hr. rewrite Hr in Hp.
  destruct (ilt maxcol mincol || ilt maxrow minrow); [done|].
  destruct (enumerate _ _ _ _ _) as [ts|]; [|done]. simpl in Hp. by injection Hp as <-.
Qed.

Lemma cal3857Tiles_tiles x y z zoomOffset isGCJ02 plan mincol maxcol minrow maxrow :
  cal3857Tiles x y z zoomOffset isGCJ02 = Some (Some plan) →
  range3857 x y z isGCJ02 = (mincol, maxcol, minrow, maxrow) →
  enumerate minrow maxrow mincol maxcol (λ col row, (col, row, z + zoomOffset))
  = Some (tiles plan).
Proof.
  unfold cal3857Tiles. intros Hp Hr. rewrite Hr in Hp.
  destruct (ilt maxcol mincol || ilt maxrow minrow); [done|].
  destruct (enumerate _ _ _ _ _) as [ts|]; [|done]. simpl in Hp. by injection Hp as <-.
Qed.



(** C4.  The tiles enumerated by [cal4326Tiles] are exactly the triples
    [(col - 1, row, z + zoomOffset)] for [col], [row] in the computed
    inclusive ranges; those of [cal3857Tiles] are exactly the triples
    [(col, row, z + zoomOffset)].  Whenever the computed range is finite and
    not inverted both planners return, with the tiles in row-major order. *)
Theorem enumerated_columns x y z zoomOffset isGCJ02 :
  (∀ plan mincol maxcol minrow maxrow,
     cal4326Tiles x y z zoomOffset isGCJ02 = Some (Some plan) →
     range4326 x y z isGCJ02 = (mincol, maxcol, minrow, maxrow) →
     ∀ t, t ∈ tiles plan ↔
          ∃ col row, t = (col - 1, row, z + zoomOffset)
                     ∧ within mincol maxcol col ∧ within minrow maxrow row) ∧
  (∀ plan mincol maxcol minrow maxrow,
     cal3857Tiles x y z zoomOffset isGCJ02 = Some (Some plan) →
     range3857 x y z isGCJ02 = (mincol, maxcol, minrow, maxrow) →
     ∀ t, t ∈ tiles plan ↔
          ∃ col row, t = (col, row, z + zoomOffset)
                     ∧ within mincol maxcol col ∧ within minrow maxrow row) ∧
  (∀ c0 c1 r0 r1,
     range4326 x y z isGCJ02 = (Int c0, Int c1, Int r0, Int r1) → c0 ≤ c1 → r0 ≤ r1 →
     ∃ plan, cal4326Tiles x y z zoomOffset isGCJ02 = Some (Some plan) ∧
             tiles plan = (row ← seqZ r0 (r1 - r0 + 1); col ← seqZ c0 (c1 - c0 + 1);
                           [(col - 1, row, z + zoomOffset)])) ∧
  (∀ c0 c1 r0 r1,
     range3857 x y z isGCJ02 = (Int c0, Int c1, Int r0, Int r1) → c0 ≤ c1 → r0 ≤ r1 →
     ∃ plan, cal3857Tiles x y z zoomOffset isGCJ02 = Some (Some plan) ∧
             tiles plan = (row ← seqZ r0 (r1 - r0 + 1); col ← seqZ c0 (c1 - c0 + 1);
                           [(col, row, z + zoomOffset)])).
Proof.
  split; [|split; [|split]].
  - intros plan mincol maxcol minrow maxrow Hp Hr.
    apply (enumerate_within minrow maxrow mincol maxcol).
    by eapply cal4326Tiles_tiles.
  - intros plan mincol maxcol minrow maxrow Hp Hr.
    apply (enumerate_within minrow maxrow mincol maxcol).
    by eapply cal3857Tiles_tiles.
  - intros c0 c1 r0 r1 Hr Hc Hrow. unfold cal4326Tiles. cbn [ORIGIN]. rewrite Hr.
    cbn [ilt]. rewrite !bool_decide_eq_false_2 by lia. cbn [orb].
    rewrite enumerate_finite by done. simpl. eauto.
  - intros c0 c1 r0 r1 Hr Hc Hrow. unfold cal3857Tiles. rewrite Hr.
    cbn [ilt]. rewrite !bool_decide_eq_false_2 by lia. cbn [orb].
    rewrite enumerate_finite by done. simpl. eauto.
Qed.

End PlannerFacts.

(** With identity projections the box [[0, 0, 2, 1]] becomes [[0, 0, 2, 2]]
    where the claimed reconversion of (minx, miny) and (maxx, maxy) gives
    [[0, 0, 2, 1]]. *)
Lemma offsetTileBBOX_mercator_departs_from_spec :
  @Planner.offsetTileBBOX Examples.plain_geo
    (JS.of_Z 0, JS.of_Z 0, JS.of_Z 2, JS.of_Z 1) "EPSG:3857" true
  = (JS.of_Z 0, JS.of_Z 0, JS.of_Z 2, JS.of_Z 2) ∧
  @Planner.offsetTileBBOX_mercator_spec Examples.plain_geo
    (JS.of_Z 0, JS.of_Z 0, JS.of_Z 2, JS.of_Z 1)
  = (JS.of_Z 0, JS.of_Z 0, JS.of_Z 2, JS.of_Z 1).
Proof. split; vm_compute; reflexivity. Qed.

Lemma enumerated_columns_witness :
  (∃ plan, @Planner.cal4326Tiles Examples.world_geo 0 0 0 0 false = Some (Some plan) ∧
           Planner.tiles plan = [(-1, 0, 0); (0, 0, 0)]) ∧
  (∃ plan, @Planner.cal3857Tiles Examples.world_geo 0 0 0 0 false = Some (Some plan) ∧
           Planner.tiles plan = [(0, -1, 0); (0, 0, 0)]).
Proof.
  destruct (@enumerated_columns Examples.world_geo 0 0 0 0 false) as (_ & _ & H1 & H2).
  split.
  - apply (H1 0 1 0 0); [vm_compute; reflexivity | lia | lia].
  - apply (H2 0 0 (-1) 0); [vm_compute; reflexivity | lia | lia].
Defined.

(** ** Resampler guard and seam repair *)

Section ResamplerFacts.
Import JS Planner Resampler.

Lemma imin_Int a b : imin (Int a) (Int b) = Int (Z.min a b).
Proof. unfold imin, ilt. case_bool_decide; f_equal; lia. Qed.

(** The guard of pass 2 in terms of the two rounded sides. *)
Lemma degenerate_iff width height :
  degenerate width height = true ↔
  width = INaN ∨ height = INaN ∨ (∃ s, width = IInf s) ∨ (∃ s, height = IInf s) ∨
  (∃ a b, width = Int a ∧ height = Int b ∧ Z.min a b = 0).
Proof.
  destruct width as [|s|a], height as [|t|b].
  1-3: split; [intros _; by left | done].
  1,4: split; [intros _; right; by left | done].
  - split; [intros _; right; right; left; by exists s
           | intros _; unfold degenerate; destruct s, t; cbn; by rewrite ?orb_true_r].
  - split; [intros _; right; right; left; by exists s
           | intros _; unfold degenerate; destruct s; cbn; by rewrite ?orb_true_r].
  - split; [intros _; right; right; right; left; by exists t
           | intros _; unfold degenerate; destruct t; cbn; by rewrite ?orb_true_r].
  - unfold degenerate. rewrite imin_Int. cbn [isNaN iabs strict_eq orb].
    rewrite !orb_false_r, bool_decide_eq_true. split.
    + intros H. do 4 right. by exists a, b.
    + intros [H|[H|[[? H]|[[? H]|(a' & b' & H1 & H2 & H3)]]]]; try done.
      by simplify_eq.
Qed.

Lemma transformTiles_None {Image}
    (rasterize : pixelsresult → BBOXtype → integer → integer → bool → Image)
    pr mbbox debug :
  transformTiles rasterize pr mbbox debug = None ↔
  degenerate (raster_size (pixels_bbox pr) mbbox).1
             (raster_size (pixels_bbox pr) mbbox).2 = true.
Proof.
  unfold transformTiles. destruct (raster_size (pixels_bbox pr) mbbox) as [w h]. simpl.
  destruct (degenerate w h); split; done.
Qed.

(** The branch that would copy from the previous column is never taken:
    [pre] is read at the index of [current]. *)
Lemma fixStep_never_previous width height colBlanks data col :
  fixStep width height colBlanks data col =
  if at_index colBlanks (col - 1) && negb (at_index colBlanks col)
  then fixCol width height data col (col + 1) else data.
Proof.
  unfold fixStep.
  destruct (at_index colBlanks (col - 1)), (at_index colBlanks col); done.
Qed.

(** C2, at a 4×4 raster with column 0 opaque red, columns 1 and 2 fully
    transparent and column 3 opaque blue.  Seam repair copies column 3 into
    column 2 and leaves column 1 fully transparent; as described, column 1
    would have become a copy of column 0. *)
Theorem checkBoundaryBlank_leaves_column_blank :
  column (checkBoundaryBlank Examples.seam_input) 2 = column Examples.seam_input 3 ∧
  column (checkBoundaryBlank Examples.seam_input) 1 = column Examples.seam_input 1 ∧
  transparent (column (checkBoundaryBlank Examples.seam_input) 1) = true ∧
  transparent (column Examples.seam_input 0) = false ∧
  column (checkBoundaryBlank_spec Examples.seam_input) 1 = column Examples.seam_input 0.
Proof. repeat split; vm_compute; reflexivity. Qed.

End ResamplerFacts.

(** ** Orchestration *)

Section OrchestratorFacts.
Import JS Planner Resampler Orchestrator.
Context {Image World Output Error : Type}.
Context {C : Collaborators Image World Output Error} {G : GeoLib}.

Lemma outcomes_length todo (w : World) : length (outcomes todo w) = length todo.
Proof.
  revert w. induction todo as [|tile todo IH]; intros w; cbn [outcomes]; [done|].
  destruct (getTileWithMaxZoom tile w) as [res w']. simpl. by rewrite IH.
Qed.

(** The loader asks for every tile in turn, whatever the earlier ones
    settled with, and stores the image or the blank tile. *)
Lemma loadTile_spec errorLog todo st :
  asked (loadTile errorLog todo st) = asked st ++ todo ∧
  loaded (loadTile errorLog todo st) =
    loaded st ++ zip todo (tileImage <$> outcomes todo (now st)).
Proof.
  revert st. induction todo as [|tile todo IH]; intros st; cbn [loadTile outcomes].
  - simpl. by rewrite !app_nil_r.
  - destruct (getTileWithMaxZoom tile (now st)) as [res w].
    match goal with |- context [loadTile _ _ ?st'] => destruct (IH st') as [-> ->] end.
    destruct res as [image|error];
      cbn [asked loaded now fmap list_fmap zip zip_with tileImage];
      by rewrite <- !app_assoc.
Qed.

Lemma resample_None o plan image :
  resample o plan image = None ↔
  degenerate (resample_size o plan image).1 (resample_size o plan image).2 = true.
Proof.
  unfold resample, resample_size.
  destruct (decide (projection o = "EPSG:4326")); apply transformTiles_None.
Qed.


Lemma tileTransform_loaded o w plan :
  planCoverage o = Some (Some plan) → tiles plan ≠ [] →
  tileTransform o w =
    Some (returnImage
            (default getBlankTile
               (resample o plan
                  (layoutTiles
                     (loaded (loadTile (errorLog o) (tiles plan) (Loading [] [] [] w)))
                     (debug o))))
            (loadTile (errorLog o) (tiles plan) (Loading [] [] [] w))).
Proof.
  unfold tileTransform. intros -> Ht. simpl. by destruct (tiles plan).
Qed.


(** C9.  Every tile of the plan is asked for, in order, whatever the earlier
    ones settled with; a tile whose retrieval fails enters the mosaic as the
    blank tile; and the request settles with what the output step makes of
    the resampled mosaic (or of the blank tile), never with the error of a
    tile. *)
Theorem tile_failures_are_absorbed o w plan :
  planCoverage o = Some (Some plan) → tiles plan ≠ [] →
  ∃ r, tileTransform o w = Some r ∧
       requested r = tiles plan ∧
       length (outcomes (tiles plan) w) = length (tiles plan) ∧
       opImage r =
         default getBlankTile
           (resample o plan
              (layoutTiles (zip (tiles plan) (tileImage <$> outcomes (tiles plan) w))
                           (debug o))) ∧
       settled r = createImageTypeResult (opImage r) ∧
       (∀ i e, outcomes (tiles plan) w !! i = Some (inr e) →
               (tileImage <$> outcomes (tiles plan) w) !! i = Some getBlankTile).
Proof.
  intros Hp Ht. rewrite (tileTransform_loaded o w plan Hp Ht).
  destruct (loadTile_spec (errorLog o) (tiles plan) (Loading [] [] [] w)) as [Ha Hl].
  cbn [asked loaded now app] in Ha, Hl.
  eexists. split; [reflexivity|]. unfold returnImage. cbn [requested opImage settled].
  rewrite Ha, Hl. repeat split.
  - apply outcomes_length.
  - intros i e Hi. by rewrite list_lookup_fmap, Hi.
Qed.

End OrchestratorFacts.


Lemma tile_failures_are_absorbed_witness :
  ∃ r, @Orchestrator.tileTransform _ _ _ _ Examples.toy_pipeline Examples.world_geo
         (Examples.request_000 "EPSG:4326") tt = Some r ∧
       Orchestrator.requested r = [(-1, 0, 0); (0, 0, 0)].
Proof.
  destruct (@Planner.cal4326Tiles Examples.world_geo 0 0 0 0 false) as [[plan|]|] eqn:Hp;
    [| vm_compute in Hp; discriminate Hp | vm_compute in Hp; discriminate Hp].
  assert (Ht : Planner.tiles plan = [(-1, 0, 0); (0, 0, 0)]).
  { vm_compute in Hp. injection Hp as <-. reflexivity. }
  destruct (@tile_failures_are_absorbed _ _ _ _ Examples.toy_pipeline Examples.world_geo
              (Examples.request_000 "EPSG:4326") tt plan) as (r & Hr & Hreq & _).
  - unfold Orchestrator.planCoverage. simpl. exact Hp.
  - rewrite Ht. discriminate.
  - exists r. split; [exact Hr | by rewrite Hreq].
Defined.


(** ** More on the LRU cache *)

Section LRUCacheMore.
Import LRUCache.
Context {T : Type} (truthy : T → bool).
Implicit Types (m : entries T) (c : LRUCache.t T) (key : string).

Lemma Map_delete_cons key k v m :
  Map_delete key ((k, v) :: m) =
  if decide (k = key) then Map_delete key m else (k, v) :: Map_delete key m.
Proof.
  unfold Map_delete. destruct (decide (k = key)) as [->|Hne].
  - by rewrite filter_cons_False by (simpl; tauto).
  - by rewrite filter_cons_True by done.
Qed.

Lemma Map_delete_keys key m k : k ∈ (Map_delete key m).*1 ↔ k ≠ key ∧ k ∈ m.*1.
Proof.
  induction m as [|[k' v] m IH].
  { split; [intros H; by apply elem_of_nil in H | intros [_ H]; by apply elem_of_nil in H]. }
  rewrite Map_delete_cons. destruct (decide (k' = key)) as [->|Hne].
  - rewrite IH, fmap_cons, elem_of_cons. simpl. split; [tauto|].
    intros [Hk [->|Hin]]; [done | tauto].
  - rewrite !fmap_cons, !elem_of_cons, IH. simpl. split; [|tauto].
    intros [->|[Hk Hin]]; tauto.
Qed.

Lemma Map_delete_NoDup key m : NoDup m.*1 → NoDup (Map_delete key m).*1.
Proof.
  induction m as [|[k v] m IH]; [done|]. rewrite fmap_cons, NoDup_cons.
  intros [Hk Hnd]. rewrite Map_delete_cons. destruct (decide (k = key)); [by apply IH|].
  rewrite fmap_cons, NoDup_cons. split; [|by apply IH].
  rewrite Map_delete_keys. simpl in *. tauto.
Qed.

Lemma Map_delete_Forall (P : string * T → Prop) key m :
  Forall P m → Forall P (Map_delete key m).
Proof.
  unfold Map_delete. rewrite !Forall_forall. intros H x Hx.
  apply list_elem_of_filter in Hx as [_ Hx]. by apply H.
Qed.

Lemma Map_delete_size key m :
  NoDup m.*1 → key ∈ m.*1 → Map_size (Map_delete key m) = Map_size m - 1.
Proof.
  unfold Map_size.
  induction m as [|[k v] m IH]; [intros _ H; by apply elem_of_nil in H|].
  rewrite fmap_cons, NoDup_cons. intros [Hk Hnd] Hin. rewrite Map_delete_cons.
  destruct (decide (k = key)) as [->|Hne].
  - rewrite Map_delete_absent by done. simpl. lia.
  - apply elem_of_cons in Hin as [Heq|Hin]; [simpl in Heq; congruence|].
    simpl. rewrite Nat2Z.inj_succ, IH by done. simpl. lia.
Qed.

Lemma Map_get_NoDup key m v : NoDup m.*1 → (key, v) ∈ m → Map_get key m = Some v.
Proof.
  induction m as [|[k w] m IH]; [intros _ H; by apply elem_of_nil in H|].
  rewrite fmap_cons, NoDup_cons. intros [Hk Hnd] Hin. simpl.
  apply elem_of_cons in Hin as [Heq|Hin].
  - injection Heq as -> ->. by rewrite decide_True.
  - destruct (decide (k = key)) as [->|Hne]; [|by apply IH].
    exfalso. apply Hk. simpl. apply list_elem_of_fmap. by exists (key, v).
Qed.

Lemma Map_get_absent key m : key ∉ m.*1 → Map_get key m = None.
Proof.
  induction m as [|[k w] m IH]; [done|].
  rewrite fmap_cons, not_elem_of_cons. simpl. intros [Hne Hk].
  rewrite decide_False by congruence. by apply IH.
Qed.

Lemma Map_get_delete_ne key k m : k ≠ key → Map_get k (Map_delete key m) = Map_get k m.
Proof.
  intros Hne. induction m as [|[k' w] m IH]; [done|].
  rewrite Map_delete_cons. destruct (decide (k' = key)) as [->|Hne'].
  - simpl. rewrite decide_False by congruence. done.
  - simpl. by rewrite IH.
Qed.

(** The loop of [shrink] on a map without duplicate keys: it removes
    entries from the head of the insertion order until the size is [max]. *)
Lemma shrink_loop_drop (max : Z) m :
  0 ≤ max → NoDup m.*1 →
  shrink_loop truthy max (m.*1) m =
  Some (drop (Z.to_nat (Map_size m - max)) m,
        take (Z.to_nat (Map_size m - max)) m ≫= λ e, dispose truthy (Some e.2)).
Proof.
  intros Hmax. induction m as [|[k0 v0] m IH]; intros Hnd.
  - cbn [fmap list_fmap shrink_loop]. rewrite bool_decide_eq_false_2
      by (unfold Map_size; simpl; lia). by rewrite drop_nil, take_nil.
  - rewrite fmap_cons in *. apply NoDup_cons in Hnd as [Hk Hnd]. simpl in Hk.
    cbn [shrink_loop fst].
    destruct (bool_decide (Map_size ((k0, v0) :: m) > max)) eqn:Hgt.
    + apply bool_decide_eq_true in Hgt. unfold getAndRemove.
      replace (Map_has k0 ((k0, v0) :: m)) with true
        by (symmetry; apply Map_has_true; rewrite fmap_cons; left).
      rewrite Map_delete_head by done. cbn [Map_get]. rewrite decide_True by done.
      rewrite IH by done. simpl.
      replace (Z.to_nat (Map_size ((k0, v0) :: m) - max))
        with (S (Z.to_nat (Map_size m - max)))
        by (unfold Map_size in *; simpl length in *; lia).
      done.
    + apply bool_decide_eq_false in Hgt.
      replace (Z.to_nat (Map_size ((k0, v0) :: m) - max)) with 0%nat by lia.
      done.
Qed.

Lemma shrink_loop_negative (max : Z) m :
  max < 0 → NoDup m.*1 → shrink_loop truthy max (m.*1) m = None.
Proof.
  intros Hmax. induction m as [|[k0 v0] m IH]; intros Hnd.
  - cbn [fmap list_fmap shrink_loop]. rewrite bool_decide_eq_true_2
      by (unfold Map_size; simpl; lia). done.
  - rewrite fmap_cons in *. apply NoDup_cons in Hnd as [Hk Hnd]. simpl in Hk.
    cbn [shrink_loop fst].
    rewrite bool_decide_eq_true_2 by (unfold Map_size; simpl length; lia).
    unfold getAndRemove.
    replace (Map_has k0 ((k0, v0) :: m)) with true
      by (symmetry; apply Map_has_true; rewrite fmap_cons; left).
    rewrite Map_delete_head by done. by rewrite IH.
Qed.

Lemma dispose_all m :
  Forall (λ e, truthy e.2 = true) m →
  (m ≫= λ e, dispose truthy (Some e.2)) = m.*2.
Proof.
  induction 1 as [|[k v] m Hv _ IH]; [done|].
  rewrite bind_cons, IH. cbn [dispose snd] in *. by rewrite Hv.
Qed.


Lemma add_capacity_aux c key d :
  wf truthy c → 0 ≤ max c → Map_size (data c) ≤ max c →
  ∃ c' disposed,
    add truthy key d c = Some (c', disposed) ∧
    wf truthy c' ∧ max c' = max c ∧ Map_size (data c') ≤ max c'.
Proof.
  intros [Hnd Hty] Hmax Hsz. unfold add.
  destruct d as [d|]; [|by exists c, []].
  destruct (truthy d) eqn:Hd; cbn [negb]; [|by exists c, []].
  unfold has, Map_set. destruct (Map_has key (data c)) eqn:Hhas.
  - apply Map_has_true in Hhas.
    replace (Map_has key (Map_delete key (data c))) with false
      by (symmetry; apply Map_has_false; rewrite Map_delete_keys; tauto).
    cbn [data max].
    assert (Hlen : Map_size (Map_delete key (data c) ++ [(key, d)]) = Map_size (data c)).
    { unfold Map_size. rewrite length_app. simpl.
      pose proof (Map_delete_size key (data c) Hnd Hhas) as H. unfold Map_size in H. lia. }
    rewrite bool_decide_eq_false_2 by lia.
    eexists _, _. split; [done|]. split; [|split; [done|cbn [data max]; lia]].
    split; unfold keys; cbn [data].
    + rewrite fmap_app. apply NoDup_app. split; [by apply Map_delete_NoDup|].
      split; [|apply NoDup_singleton].
      intros k Hk Hk'. apply list_elem_of_singleton in Hk'. simpl in Hk'. subst k.
      apply Map_delete_keys in Hk. tauto.
    + apply Forall_app. split; [by apply Map_delete_Forall | by apply Forall_singleton].
  - cbn [data max].
    destruct (bool_decide (Map_size (data c ++ [(key, d)]) > max c)) eqn:Hgt.
    + apply bool_decide_eq_true in Hgt.
      assert (Hfull : Map_size (data c) = max c).
      { unfold Map_size in *. rewrite length_app in Hgt. simpl in Hgt. lia. }
      destruct (add_over_capacity truthy c key d) as (k0 & v0 & rest & Hl & Hadd);
        [done..|].
      unfold add, has, Map_set in Hadd. rewrite Hd, Hhas in Hadd. cbn [negb data max] in Hadd.
      rewrite bool_decide_eq_true_2 in Hadd by done. rewrite Hadd.
      eexists _, _. split; [done|].
      assert (Hnd' : NoDup ((data c ++ [(key, d)]).*1)).
      { apply Map_has_false in Hhas.
        rewrite fmap_app. apply NoDup_app. split; [done|]. split.
        - intros k Hk Hk'. apply list_elem_of_singleton in Hk'. by subst.
        - apply NoDup_singleton. }
      assert (Hty' : Forall (λ e, truthy e.2 = true) (data c ++ [(key, d)])).
      { apply Forall_app. split; [done|]. by apply Forall_singleton. }
      rewrite Hl in Hnd', Hty'. rewrite fmap_cons in Hnd'.
      apply NoDup_cons in Hnd' as [_ Hnd']. apply Forall_cons in Hty' as [_ Hty'].
      split; [by split|]. split; [done|]. cbn [data max].
      apply (f_equal length) in Hl. rewrite length_app in Hl. simpl in Hl.
      unfold Map_size in *. lia.
    + apply bool_decide_eq_false in Hgt.
      eexists _, _. split; [done|]. split; [|split; [done|cbn [data max]; lia]].
      apply Map_has_false in Hhas.
      split; unfold keys; cbn [data].
      * rewrite fmap_app. apply NoDup_app. split; [done|]. split.
        -- intros k Hk Hk'. apply list_elem_of_singleton in Hk'. by subst.
        -- apply NoDup_singleton.
      * apply Forall_app. split; [done|]. by apply Forall_singleton.
Qed.


Lemma snoc_lookup key d m :
  NoDup (m ++ [(key, d)]).*1 →
  Map_has key (m ++ [(key, d)]) = true ∧
  Map_get key (m ++ [(key, d)]) = Some d ∧
  last (m ++ [(key, d)]).*1 = Some key.
Proof.
  intros Hnd. split; [|split].
  - apply Map_has_true. rewrite fmap_app. apply elem_of_app. right. left.
  - apply Map_get_NoDup; [done|]. apply elem_of_app. right. left.
  - rewrite fmap_app. change ([(key, d)].*1) with [key]. by rewrite last_snoc.
Qed.

Lemma readd_aux c key d :
  wf truthy c → Map_size (data c) ≤ max c →
  has key c = true → truthy d = true →
  add truthy key (Some d) c
  = Some (Cache (max c) (Map_delete key (data c) ++ [(key, d)]), []).
Proof.
  intros [Hnd Hty] Hsz Hhas Hd. unfold add. rewrite Hd, Hhas. cbn [negb].
  unfold has in Hhas. apply Map_has_true in Hhas. unfold Map_set.
  replace (Map_has key (Map_delete key (data c))) with false
    by (symmetry; apply Map_has_false; rewrite Map_delete_keys; tauto).
  cbn [data max].
  rewrite bool_decide_eq_false_2; [done|].
  unfold Map_size. rewrite length_app. simpl.
  pose proof (Map_delete_size key (data c) Hnd Hhas) as H. unfold Map_size in *. lia.
Qed.

Lemma add_get_aux c key d :
  wf truthy c → 1 ≤ max c → Map_size (data c) ≤ max c → truthy d = true →
  ∃ c' disposed,
    add truthy key (Some d) c = Some (c', disposed) ∧
    (get key c').1 = Some d ∧ newest c' = Some key ∧
    (∀ x, x ∈ disposed → x ∈ (data c).*2).
Proof.
  intros Hwf Hmax Hsz Hd.
  destruct (add_capacity_aux c key (Some d) Hwf ltac:(lia) Hsz)
    as (c' & disposed & Hadd & [Hnd' _] & _ & _).
  exists c', disposed. split; [done|].
  assert (Hsnoc : (∃ m, data c' = m ++ [(key, d)]) ∧
                  (∀ x, x ∈ disposed → x ∈ (data c).*2)).
  { destruct Hwf as [Hnd Hty]. destruct (has key c) eqn:Hhas.
    - rewrite readd_aux in Hadd by done. injection Hadd as <- <-.
      split; [eauto | intros x Hx; by apply elem_of_nil in Hx].
    - destruct (decide (Map_size (data c) = max c)) as [Hfull|Hnf].
      + destruct (add_over_capacity truthy c key d) as (k0 & v0 & rest & Hl & Hadd');
          [done..|].
        rewrite Hadd' in Hadd. injection Hadd as <- <-. cbn [data].
        destruct (data c) as [|e m]; [unfold Map_size in Hfull; simpl in Hfull; lia|].
        simpl in Hl. injection Hl as -> <-. split; [eauto|].
        intros x Hx. apply list_elem_of_singleton in Hx as ->. rewrite fmap_cons. left.
      + unfold add, has, Map_set in Hadd. unfold has in Hhas.
        rewrite Hd, Hhas in Hadd. cbn [negb data max] in Hadd.
        rewrite bool_decide_eq_false_2 in Hadd.
        * injection Hadd as <- <-.
          split; [eauto | intros x Hx; by apply elem_of_nil in Hx].
        * unfold Map_size in *. rewrite length_app. simpl. lia. }
  destruct Hsnoc as [[m Hm] Hdisp]. unfold keys in Hnd'. rewrite Hm in Hnd'.
  destruct (snoc_lookup key d m Hnd') as (H1 & H2 & H3).
  unfold get, has, newest, keys. rewrite Hm, H1. by repeat split.
Qed.

(** X1.  [add] always returns on a cache of non-negative capacity, never leaves
    more than [max] entries, and keeps the keys distinct and the payloads
    truthy. *)
Theorem add_keeps_capacity c key d :
  wf truthy c → 0 ≤ max c → Map_size (data c) ≤ max c →
  ∃ c' disposed,
    add truthy key d c = Some (c', disposed) ∧
    wf truthy c' ∧ max c' = max c ∧ Map_size (data c') ≤ max c'.
Proof. apply add_capacity_aux. Qed.

(** X2.  Re-adding a key that is present moves it to the newest position with its
    new payload, evicts nothing, and does not hand the replaced payload to
    [onRemove]. *)
Theorem readd_moves_to_newest c key d :
  wf truthy c → Map_size (data c) ≤ max c →
  has key c = true → truthy d = true →
  add truthy key (Some d) c
  = Some (Cache (max c) (Map_delete key (data c) ++ [(key, d)]), []).
Proof. apply readd_aux. Qed.

(** X3.  What was added can be read back: after [add(key, d)] on a cache of
    capacity at least 1, [get(key)] returns [d], [key] is the newest, and
    whatever was evicted was in the cache before. *)
Theorem add_then_get c key d :
  wf truthy c → 1 ≤ max c → Map_size (data c) ≤ max c → truthy d = true →
  ∃ c' disposed,
    add truthy key (Some d) c = Some (c', disposed) ∧
    (get key c').1 = Some d ∧ newest c' = Some key ∧
    (∀ x, x ∈ disposed → x ∈ (data c).*2).
Proof. apply add_get_aux. Qed.

(** X4.  [setMaxSize] with a non-negative bound keeps the newest [max] entries:
    it evicts from the head of the insertion order and hands each evicted
    payload to [onRemove], oldest first. *)
Theorem setMaxSize_evicts_oldest (newmax : Z) c :
  wf truthy c → 0 ≤ newmax →
  setMaxSize truthy newmax c
  = Some (Cache newmax (drop (Z.to_nat (Map_size (data c) - newmax)) (data c)),
          (take (Z.to_nat (Map_size (data c) - newmax)) (data c)).*2).
Proof.
  intros [Hnd Hty] Hmax. unfold setMaxSize. cbn [data max].
  destruct (bool_decide (Map_size (data c) > newmax)) eqn:Hgt.
  - unfold shrink. cbn [data max]. unfold keys in Hnd.
    rewrite shrink_loop_drop by done. simpl.
    rewrite dispose_all; [done|]. by apply Forall_take.
  - apply bool_decide_eq_false in Hgt.
    replace (Z.to_nat (Map_size (data c) - newmax)) with 0%nat by lia.
    by rewrite drop_0, take_0.
Qed.

(** X5.  A cache of negative capacity cannot take an entry: [add] with a truthy
    payload empties the map and then spins in [shrink] for ever. *)
Theorem negative_capacity_never_returns c key d :
  wf truthy c → max c < 0 → truthy d = true →
  add truthy key (Some d) c = None.
Proof.
  intros [Hnd Hty] Hmax Hd. unfold add. rewrite Hd. cbn [negb].
  unfold has, Map_set. destruct (Map_has key (data c)) eqn:Hhas.
  - apply Map_has_true in Hhas.
    replace (Map_has key (Map_delete key (data c))) with false
      by (symmetry; apply Map_has_false; rewrite Map_delete_keys; tauto).
    cbn [data max]. rewrite bool_decide_eq_true_2 by (unfold Map_size; lia).
    unfold shrink. cbn [data max]. rewrite shrink_loop_negative; [done..|].
    rewrite fmap_app. apply NoDup_app. split; [by apply Map_delete_NoDup|].
    split; [|apply NoDup_singleton].
    intros k Hk Hk'. apply list_elem_of_singleton in Hk'. simpl in Hk'. subst k.
    apply Map_delete_keys in Hk. tauto.
  - apply Map_has_false in Hhas.
    cbn [data max]. rewrite bool_decide_eq_true_2 by (unfold Map_size; lia).
    unfold shrink. cbn [data max]. rewrite shrink_loop_negative; [done..|].
    rewrite fmap_app. apply NoDup_app. split; [done|]. split.
    + intros k Hk Hk'. apply list_elem_of_singleton in Hk'. by subst.
    + apply NoDup_singleton.
Qed.

(** X6.  [remove] of a present key hands its payload to [onRemove] once, whether
    truthy or not, forgets the key and leaves every other key readable;
    [remove] of a missing key does nothing. *)
Theorem remove_forgets_one_key c key :
  wf truthy c →
  (has key c = false → remove key c = (c, [])) ∧
  (∀ v, (key, v) ∈ data c →
     (remove key c).2 = [v] ∧
     has key (remove key c).1 = false ∧
     ∀ k, k ≠ key → (get k (remove key c).1).1 = (get k c).1).
Proof.
  intros [Hnd Hty]. split.
  - intros Hhas. unfold remove. by rewrite Hhas.
  - intros v Hv.
    assert (Hin : key ∈ (data c).*1).
    { apply list_elem_of_fmap. by exists (key, v). }
    unfold remove. replace (has key c) with true
      by (symmetry; by apply Map_has_true).
    rewrite (Map_get_NoDup key (data c) v) by done. cbn [fst snd].
    split; [done|]. split.
    + apply Map_has_false. cbn [data]. rewrite Map_delete_keys. tauto.
    + intros k Hk. unfold get, has. cbn [data].
      destruct (Map_has k (data c)) eqn:Hh.
      * replace (Map_has k (Map_delete key (data c))) with true.
        { cbn [fst]. by apply Map_get_delete_ne. }
        symmetry. apply Map_has_true. apply Map_has_true in Hh.
        rewrite Map_delete_keys. tauto.
      * replace (Map_has k (Map_delete key (data c))) with false; [done|].
        symmetry. apply Map_has_false. apply Map_has_false in Hh.
        rewrite Map_delete_keys. tauto.
Qed.

End LRUCacheMore.

Section LRUCacheEntries.
Import LRUCache.
Context {T : Type} (truthy : T → bool).
Implicit Types (m : entries T) (c : LRUCache.t T) (key : string).

Lemma Map_delete_subseteq key m e : e ∈ Map_delete key m → e ∈ m.
Proof. unfold Map_delete. rewrite list_elem_of_filter. tauto. Qed.

Lemma shrink_loop_subseteq (max : Z) it m m' disposed e :
  shrink_loop truthy max it m = Some (m', disposed) → e ∈ m' → e ∈ m.
Proof.
  revert m m' disposed. induction it as [|k it IH]; intros m m' disposed; cbn [shrink_loop].
  - destruct (bool_decide (Map_size m > max)); [done|]. by intros [= <- _].
  - destruct (bool_decide (Map_size m > max)); [|by intros [= <- _]].
    unfold getAndRemove. destruct (Map_has k m).
    + destruct (shrink_loop truthy max it (Map_delete k m)) as [[m'' d'']|] eqn:Hs; [|done].
      simpl. intros [= <- _] He. eapply Map_delete_subseteq, IH; eauto.
    + destruct (shrink_loop truthy max it m) as [[m'' d'']|] eqn:Hs; [|done].
      simpl. intros [= <- _] He. eapply IH; eauto.
Qed.

(** Whatever [add] leaves in the map was there before or is the new entry. *)
Lemma add_entries c key d c' disposed e :
  add truthy key (Some d) c = Some (c', disposed) →
  e ∈ data c' → e ∈ data c ∨ e = (key, d).
Proof.
  unfold add. destruct (truthy d); cbn [negb]; [|intros [= <- _]; tauto].
  assert (Hset : ∀ m, e ∈ Map_set key d m → e ∈ m ∨ e = (key, d)).
  { intros m. unfold Map_set. destruct (Map_has key m).
    - rewrite list_elem_of_fmap. intros ([k v] & -> & Hin).
      destruct (decide ((k, v).1 = key)); [by right | by left].
    - rewrite elem_of_app, list_elem_of_singleton. tauto. }
  assert (Hshrink : ∀ m, shrink truthy (Cache (max c) m) = Some (c', disposed) →
                         e ∈ data c' → e ∈ m).
  { intros m. unfold shrink. cbn [data max].
    destruct (shrink_loop truthy (max c) m.*1 m) as [[m'' d'']|] eqn:Hs; [|done].
    simpl. intros [= <- _]. cbn [data]. by eapply shrink_loop_subseteq. }
  destruct (has key c); cbn [data max].
  - destruct (bool_decide _).
    + intros Hs He. apply (Hshrink _ Hs), Hset in He as [He|He]; [|tauto].
      left. by eapply Map_delete_subseteq.
    + intros [= <- _]. cbn [data]. intros He. apply Hset in He as [He|He]; [|tauto].
      left. by eapply Map_delete_subseteq.
  - destruct (bool_decide _).
    + intros Hs He. by apply (Hshrink _ Hs), Hset in He.
    + intros [= <- _]. cbn [data]. apply Hset.
Qed.
End LRUCacheEntries.

Lemma cache_ab_wf : LRUCache.wf Examples.nonzero Examples.cache_ab.
Proof.
  split.
  - apply (bool_decide_unpack (NoDup (LRUCache.keys Examples.cache_ab))).
    vm_compute. exact I.
  - repeat constructor.
Qed.

Lemma add_keeps_capacity_witness :
  ∃ c' disposed,
    LRUCache.add Examples.nonzero "c" (Some 3) Examples.cache_ab = Some (c', disposed) ∧
    LRUCache.wf Examples.nonzero c' ∧
    LRUCache.max c' = LRUCache.max Examples.cache_ab ∧
    LRUCache.Map_size (LRUCache.data c') ≤ LRUCache.max c'.
Proof.
  apply (add_keeps_capacity Examples.nonzero Examples.cache_ab "c" (Some 3)).
  - apply cache_ab_wf.
  - simpl. lia.
  - vm_compute. discriminate.
Defined.

Lemma readd_moves_to_newest_witness :
  LRUCache.add Examples.nonzero "a" (Some 5) Examples.cache_ab
  = Some (LRUCache.Cache (LRUCache.max Examples.cache_ab)
            (LRUCache.Map_delete "a" (LRUCache.data Examples.cache_ab)
               ++ [("a"%string, 5)]), []).
Proof.
  apply (readd_moves_to_newest Examples.nonzero Examples.cache_ab "a" 5).
  - apply cache_ab_wf.
  - vm_compute. discriminate.
  - reflexivity.
  - reflexivity.
Defined.

Lemma add_then_get_witness :
  ∃ c' disposed,
    LRUCache.add Examples.nonzero "c" (Some 3) Examples.cache_ab = Some (c', disposed) ∧
    (LRUCache.get "c" c').1 = Some 3 ∧ LRUCache.newest c' = Some "c"%string ∧
    (∀ x, x ∈ disposed → x ∈ (LRUCache.data Examples.cache_ab).*2).
Proof.
  apply (add_then_get Examples.nonzero Examples.cache_ab "c" 3).
  - apply cache_ab_wf.
  - simpl. lia.
  - vm_compute. discriminate.
  - reflexivity.
Defined.

Lemma setMaxSize_evicts_oldest_witness :
  LRUCache.setMaxSize Examples.nonzero 1 Examples.cache_ab
  = Some (LRUCache.Cache 1
            (drop (Z.to_nat (LRUCache.Map_size (LRUCache.data Examples.cache_ab) - 1))
                  (LRUCache.data Examples.cache_ab)),
          (take (Z.to_nat (LRUCache.Map_size (LRUCache.data Examples.cache_ab) - 1))
                (LRUCache.data Examples.cache_ab)).*2).
Proof.
  apply (setMaxSize_evicts_oldest Examples.nonzero 1 Examples.cache_ab).
  - apply cache_ab_wf.
  - lia.
Defined.

Lemma negative_capacity_never_returns_witness :
  LRUCache.add Examples.nonzero "a" (Some 1) Examples.cache_negative = None.
Proof.
  apply (negative_capacity_never_returns Examples.nonzero Examples.cache_negative "a" 1).
  - split; constructor.
  - simpl. lia.
  - reflexivity.
Defined.

Lemma remove_forgets_one_key_witness :
  (LRUCache.remove "a" Examples.cache_ab).2 = [1] ∧
  LRUCache.has "a" (LRUCache.remove "a" Examples.cache_ab).1 = false ∧
  ∀ k, k ≠ "a"%string →
       (LRUCache.get k (LRUCache.remove "a" Examples.cache_ab).1).1
       = (LRUCache.get k Examples.cache_ab).1.
Proof.
  destruct (remove_forgets_one_key Examples.nonzero Examples.cache_ab "a" cache_ab_wf)
    as [_ H].
  apply (H 1). left.
Defined.

(** ** More on the fetch registry and the tile caches *)

Section TileGetMore.
Import TileGet.
Implicit Types (s : state) (T U : string) (c control : nat).

Lemma splice_first_absent control l : control ∉ l → splice_first control l = l.
Proof.
  induction l as [|c l IH]; [done|]. rewrite not_elem_of_cons. intros [Hne Hl].
  simpl. rewrite decide_False by congruence. by rewrite IH.
Qed.

Lemma splice_first_snoc control l :
  control ∉ l → splice_first control (l ++ [control]) = l.
Proof.
  induction l as [|c l IH]; simpl.
  - intros _. by rewrite decide_True.
  - rewrite not_elem_of_cons. intros [Hne Hl].
    rewrite decide_False by congruence. by rewrite IH.
Qed.

Lemma splice_first_sublist control l x : x ∈ splice_first control l → x ∈ l.
Proof.
  induction l as [|c l IH]; [done|]. simpl.
  destruct (decide (c = control)); rewrite ?elem_of_cons; [tauto|].
  intros [->|H]; [by left | right; by apply IH].
Qed.

Lemma splice_first_NoDup control l :
  NoDup l → control ∉ splice_first control l.
Proof.
  induction 1 as [|c l Hc Hnd IH]; simpl; [apply not_elem_of_nil|].
  destruct (decide (c = control)) as [->|Hne]; [done|].
  rewrite not_elem_of_cons. split; [congruence | done].
Qed.

Lemma group_finishFetch control s U :
  group U (finishFetch control s) = splice_first control (group U s).
Proof.
  unfold finishFetch, group. cbn [set_CONTROLCACHE CONTROLCACHE].
  rewrite map_lookup_filter, lookup_fmap.
  destruct (CONTROLCACHE s !! U) as [l|]; simpl; [|done].
  destruct (decide (splice_first control l = [])) as [->|Hne].
  - by rewrite option_guard_False by (simpl; tauto).
  - by rewrite option_guard_True.
Qed.

(** X7.  [finishFetch] leaves no empty group behind, drops the controller from
    every group that lists it (its first occurrence), and touches no other
    member. *)
Theorem finishFetch_drops_controller control s :
  (∀ U, CONTROLCACHE (finishFetch control s) !! U ≠ Some []) ∧
  (∀ U, group U (finishFetch control s) = splice_first control (group U s)) ∧
  (∀ U, control ∉ group U s → group U (finishFetch control s) = group U s) ∧
  (∀ U, NoDup (group U s) → control ∉ group U (finishFetch control s)).
Proof.
  split; [|split; [|split]].
  - intros U. unfold finishFetch. cbn [set_CONTROLCACHE CONTROLCACHE].
    intros H. apply map_lookup_filter_Some in H as [_ H]. by apply H.
  - intros U. apply group_finishFetch.
  - intros U H. by rewrite group_finishFetch, splice_first_absent.
  - intros U H. rewrite group_finishFetch. by apply splice_first_NoDup.
Qed.

(** X8.  Cancelling a task that has no group changes nothing, and cancelling
    twice is cancelling once (for a task id that is not the name of a member
    of [Object.prototype], where [CONTROLCACHE[taskId]] would read the
    inherited member). *)
Theorem cancelFetch_unknown_task s T :
  T ∉ JSObject.Object_prototype →
  (CONTROLCACHE s !! T = None → cancelFetch T s = s) ∧
  cancelFetch T (cancelFetch T s) = cancelFetch T s.
Proof.
  intros _.
  assert (H : ∀ s, CONTROLCACHE s !! T = None → cancelFetch T s = s).
  { intros s' Hn. unfold cancelFetch, group. rewrite Hn. cbn [default foldl].
    rewrite delete_id by done. by destruct s'. }
  split; [apply H|]. apply H.
  unfold cancelFetch at 1. cbn [set_CONTROLCACHE CONTROLCACHE].
  apply lookup_delete_eq.
Qed.

Lemma alloc_frame pixels s :
  CONTROLCACHE (alloc pixels s).2 = CONTROLCACHE s ∧
  next_control (alloc pixels s).2 = next_control s ∧
  tileImageCache (alloc pixels s).2 = tileImageCache s ∧
  tileBufferCache (alloc pixels s).2 = tileBufferCache s ∧
  trace (alloc pixels s).2 = trace s.
Proof. done. Qed.

Lemma dispose_all_frame l s :
  CONTROLCACHE (foldl (λ s image, disposeImage image s) s l) = CONTROLCACHE s ∧
  next_control (foldl (λ s image, disposeImage image s) s l) = next_control s ∧
  tileImageCache (foldl (λ s image, disposeImage image s) s l) = tileImageCache s ∧
  next_ref (foldl (λ s image, disposeImage image s) s l) = next_ref s ∧
  trace (foldl (λ s image, disposeImage image s) s l) = trace s ∧
  tileBufferCache (foldl (λ s image, disposeImage image s) s l) = tileBufferCache s.
Proof.
  revert s. induction l as [|x l IH]; intros s; cbn [foldl]; [done|].
  destruct (IH (disposeImage x s)) as (-> & -> & -> & -> & -> & ->). done.
Qed.

Lemma dispose_all_heap l s r :
  heap (foldl (λ s image, disposeImage image s) s l) !! r =
  if decide (r ∈ l) then None else heap s !! r.
Proof.
  revert s. induction l as [|x l IH]; intros s; cbn [foldl].
  - by rewrite decide_False by apply not_elem_of_nil.
  - rewrite IH. unfold disposeImage, set_heap. cbn [heap].
    destruct (decide (r ∈ l)) as [Hin|Hnin].
    + by rewrite decide_True by (by right).
    + destruct (decide (r = x)) as [->|Hne].
      * rewrite lookup_delete_eq. by rewrite decide_True by left.
      * rewrite lookup_delete_ne by done.
        rewrite decide_False; [done|]. rewrite elem_of_cons. tauto.
Qed.

(** X9.  Settling a request that was left pending takes its controller off the
    table again: whatever the network answers, the promise chain returns
    and every cancellation group is as it was before the request (the task
    id not being the name of a member of [Object.prototype]). *)
Theorem settled_request_leaves_groups s url o url' T control s1 :
  T ∉ JSObject.Object_prototype →
  registry_wf s → cache_ok (tileImageCache s) →
  fetchTile (Url url) o s = (Pending url' T control, s1) →
  ∀ res, ∃ r s2,
    fetchTile_settle url o control res s1 = Some (r, s2) ∧
    ∀ U, group U s2 = group U s.
Proof.
  intros _ [Hdisj Hlt] (Hwf & Hmax & Hsz) Hf res.
  unfold fetchTile in Hf.
  destruct (__taskId o) as [taskId|]; [|done].
  destruct (falsy (Some taskId)); [done|].
  destruct (LRUCache.get url (tileImageCache (log (CacheLookup ImageCache url) s))).1
    as [image|].
  { by destruct (copyImageBitMap image (log (CacheLookup ImageCache url) s)). }
  cbn [newAbortController log next_control] in Hf.
  injection Hf as <- <- <- <-.
  set (s1 := log _ (cacheFetch _ _ _)).
  assert (Hg1 : ∀ U, splice_first (next_control s) (group U s1) = group U s).
  { intros U. subst s1.
    change (group U (log ?e ?s')) with (group U s').
    rewrite group_cacheFetch.
    change (group U (State _ _ _ _ (CONTROLCACHE s) _ _ _)) with (group U s).
    assert (Hfresh : next_control s ∉ group U s).
    { intros Hin. apply Hlt in Hin. lia. }
    destruct (decide (U = taskId)).
    - by apply splice_first_snoc.
    - by apply splice_first_absent. }
  assert (Hc1 : tileImageCache s1 = tileImageCache s) by done.
  destruct res as [e|ok body [pixels|]]; cbn [fetchTile_settle].
  - eexists _, _. split; [done|]. intros U. by rewrite group_finishFetch.
  - destruct (alloc pixels s1) as [image sa] eqn:Ha.
    pose proof (alloc_frame pixels s1) as (A1 & A2 & A3 & A4 & A5). rewrite Ha in *.
    cbn [snd] in *.
    assert (Hadd : ∃ sb, (if disableCache o then Some sa else tileImageCache_add url image sa)
                         = Some sb ∧ CONTROLCACHE sb = CONTROLCACHE sa).
    { destruct (disableCache o); [by eexists|].
      unfold tileImageCache_add.
      destruct (add_capacity_aux truthy (tileImageCache sa) url (Some image))
        as (c' & removed & -> & _); [rewrite A3, Hc1; done..|].
      simpl. eexists. split; [done|].
      by destruct (dispose_all_frame removed (set_tileImageCache c' sa)) as (-> & _). }
    destruct Hadd as (sb & -> & Hb). cbn [mbind option_bind].
    destruct (copyImageBitMap image (finishFetch (next_control s) sb)) as [r s2] eqn:Hc.
    pose proof (copyImageBitMap_registry image (finishFetch (next_control s) sb)) as [C1 _].
    rewrite Hc in C1. cbn [snd] in C1.
    eexists _, _. split; [done|]. intros U.
    transitivity (group U (finishFetch (next_control s) sb)).
    { unfold group. by rewrite C1. }
    rewrite group_finishFetch. rewrite <- Hg1. f_equal.
    unfold group. by rewrite Hb, A1.
  - eexists _, _. split; [done|]. intros U. by rewrite group_finishFetch.
Qed.

Lemma finishFetch_frame control s :
  heap (finishFetch control s) = heap s ∧
  next_ref (finishFetch control s) = next_ref s ∧
  tileImageCache (finishFetch control s) = tileImageCache s ∧
  trace (finishFetch control s) = trace s.
Proof. done. Qed.

(** X10.  A tile fetched with caching on is served from the cache afterwards: the
    next [fetchTile] of the same url makes no network request and resolves
    with another fresh copy of the same pixels. *)
Theorem fetched_tile_is_served_from_cache s url o T control body pixels :
  cache_ok (tileImageCache s) → 1 ≤ LRUCache.max (tileImageCache s) → store_ok s →
  __taskId o = Some T → T ≠ EmptyString → disableCache o = false →
  ∃ r s2,
    fetchTile_settle url o control (FetchResponse true body (Some pixels)) s
    = Some (Resolve r, s2) ∧
    heap s2 !! r = Some pixels ∧
    ∃ r' s3,
      fetchTile (Url url) o s2 = (Settled (Resolve r'), s3) ∧
      r' ≠ r ∧ heap s3 !! r' = Some pixels ∧ heap s3 !! r = Some pixels ∧
      trace s3 = trace s2 ++ [CacheLookup ImageCache url].
Proof.
  intros (Hwf & Hmax & Hsz) Hmax1 [Hheap Hrefs] Ht Hne Hdis.
  cbn [fetchTile_settle]. rewrite Hdis.
  destruct (alloc pixels s) as [image sa] eqn:Ha.
  assert (Hi : image = next_ref s) by (by injection Ha as <- _).
  assert (Hsa : heap sa = <[image := pixels]> (heap s) ∧ next_ref sa = S image ∧
                tileImageCache sa = tileImageCache s).
  { injection Ha as <- <-. done. }
  destruct Hsa as (Hsa1 & Hsa2 & Hsa3).
  unfold tileImageCache_add.
  destruct (add_get_aux truthy (tileImageCache s) url image) as
    (c' & removed & Hadd & Hget & _ & Hrem); [done..|].
  rewrite Hsa3, Hadd. cbn [mbind option_bind].
  set (sb := foldl _ (set_tileImageCache c' sa) removed).
  assert (Hrm : image ∉ removed).
  { intros Hin. apply Hrem in Hin. apply list_elem_of_fmap in Hin as (e & -> & He).
    rewrite Forall_forall in Hrefs. apply Hrefs in He. lia. }
  pose proof (dispose_all_frame removed (set_tileImageCache c' sa)) as (_ & _ & B3 & B4 & _ & _).
  pose proof (dispose_all_heap removed (set_tileImageCache c' sa) image) as B5.
  rewrite decide_False in B5 by done. fold sb in B3, B4, B5.
  cbn [set_tileImageCache tileImageCache next_ref heap] in B3, B4, B5.
  rewrite Hsa1, lookup_insert_eq in B5.
  unfold copyImageBitMap at 1.
  destruct (finishFetch_frame control sb) as (F1 & F2 & F3 & F4).
  rewrite F1, B5. 
  destruct (alloc pixels (finishFetch control sb)) as [r s2] eqn:Hr.
  assert (Hs2 : r = S image ∧ heap s2 = <[S image := pixels]> (heap sb) ∧
                next_ref s2 = S (S image) ∧ tileImageCache s2 = c').
  { injection Hr as <- <-. cbn [alloc heap next_ref tileImageCache].
    by rewrite B4, Hsa2, B3. }
  destruct Hs2 as (-> & Hh2 & Hn2 & Hc2).
  exists (S image), s2. split; [done|].
  split; [by rewrite Hh2, lookup_insert_eq|].
  unfold fetchTile. rewrite Ht. cbn [falsy]. rewrite bool_decide_eq_false_2 by done.
  unfold log at 1. cbn [tileImageCache]. rewrite Hc2, Hget.
  unfold copyImageBitMap, log. cbn [heap].
  rewrite Hh2, lookup_insert_ne, B5 by lia. cbn [alloc next_ref heap trace].
  eexists _, _. split; [done|]. cbn [heap trace]. rewrite Hn2.
  split; [lia|]. split; [by rewrite lookup_insert_eq|]. split; [|done].
  by rewrite lookup_insert_ne, lookup_insert_eq by lia.
Qed.
End TileGetMore.

Section Invariant.
Import TileGet.
Implicit Types (s : state) (T U : string) (c control : nat).

Lemma splice_first_keeps_NoDup control l : NoDup l → NoDup (splice_first control l).
Proof.
  induction 1 as [|c l Hc Hnd IH]; simpl; [constructor|].
  destruct (decide (c = control)); [done|]. constructor; [|done].
  intros H. apply Hc. by eapply splice_first_sublist.
Qed.

Lemma registry_ok_subgroups s s' :
  (∀ U, sublist (group U s') (group U s)) → next_control s' = next_control s →
  registry_wf s ∧ registry_nodup s → registry_wf s' ∧ registry_nodup s'.
Proof.
  intros Hsub Hn [[Hdisj Hlt] Hnd].
  assert (Hin : ∀ U c, c ∈ group U s' → c ∈ group U s).
  { intros U c. apply sublist_subseteq, Hsub. }
  split; [split|].
  - intros T U c H1 H2. eapply Hdisj; by apply Hin.
  - intros T c H. rewrite Hn. eapply Hlt. by apply Hin.
  - intros T. exact (sublist_NoDup _ _ (Hnd T) (Hsub T)).
Qed.

Lemma splice_first_is_sublist control l : sublist (splice_first control l) l.
Proof.
  induction l as [|c l IH]; simpl; [done|].
  destruct (decide (c = control)); [by apply sublist_cons | by apply sublist_skip].
Qed.

Lemma registry_ok_finishFetch control s :
  registry_wf s ∧ registry_nodup s →
  registry_wf (finishFetch control s) ∧ registry_nodup (finishFetch control s).
Proof.
  apply registry_ok_subgroups; [|done].
  intros U. rewrite group_finishFetch. apply splice_first_is_sublist.
Qed.

Lemma registry_ok_cancelFetch T s :
  registry_wf s ∧ registry_nodup s →
  registry_wf (cancelFetch T s) ∧ registry_nodup (cancelFetch T s).
Proof.
  apply registry_ok_subgroups.
  - intros U. unfold cancelFetch, group. cbn [set_CONTROLCACHE CONTROLCACHE].
    destruct (abort_all_registry FetchCancelError (default [] (CONTROLCACHE s !! T)) s)
      as [-> _].
    destruct (decide (U = T)) as [->|Hne].
    + rewrite lookup_delete_eq. apply sublist_nil_l.
    + by rewrite lookup_delete_ne.
  - unfold cancelFetch. cbn [set_CONTROLCACHE next_control].
    by destruct (abort_all_registry FetchCancelError (group T s) s) as [_ ->].
Qed.

Lemma registry_ok_register T s :
  registry_wf s ∧ registry_nodup s →
  registry_wf (cacheFetch T (next_control s) (newAbortController s).2) ∧
  registry_nodup (cacheFetch T (next_control s) (newAbortController s).2).
Proof.
  intros [Hwf Hnd]. split; [by apply registry_wf_register|].
  intros U. rewrite group_cacheFetch.
  change (group U (newAbortController s).2) with (group U s).
  destruct (decide (U = T)); [|apply Hnd].
  apply NoDup_app. split; [apply Hnd|]. split; [|apply NoDup_singleton].
  intros c Hc Hc'. apply list_elem_of_singleton in Hc' as ->.
  destruct Hwf as [_ Hlt]. apply Hlt in Hc. lia.
Qed.

Lemma registry_ok_frame s s' :
  CONTROLCACHE s' = CONTROLCACHE s → next_control s' = next_control s →
  registry_wf s ∧ registry_nodup s → registry_wf s' ∧ registry_nodup s'.
Proof.
  intros HC Hn. apply registry_ok_subgroups; [|done].
  intros U. unfold group. by rewrite HC.
Qed.

Lemma store_ok_frame s s' :
  heap s' = heap s → next_ref s' = next_ref s → tileImageCache s' = tileImageCache s →
  store_ok s → store_ok s'.
Proof. unfold store_ok. by intros -> -> ->. Qed.

Lemma store_ok_alloc pixels s : store_ok s → store_ok (alloc pixels s).2.
Proof.
  intros [Hh Hc]. split; cbn [alloc snd heap next_ref tileImageCache].
  - intros r. destruct (decide (r = next_ref s)) as [->|Hne]; [lia|].
    rewrite lookup_insert_ne by done. intros H. apply Hh in H. lia.
  - eapply Forall_impl; [exact Hc|]. simpl. lia.
Qed.

Lemma store_ok_copy image s : store_ok s → store_ok (copyImageBitMap image s).2.
Proof.
  intros Hs. unfold copyImageBitMap. destruct (heap s !! image) as [pixels|]; [|done].
  by apply (store_ok_alloc pixels).
Qed.

Lemma store_ok_dispose l s :
  store_ok s → store_ok (foldl (λ s image, disposeImage image s) s l).
Proof.
  intros [Hh Hc].
  destruct (dispose_all_frame l s) as (_ & _ & F3 & F4 & _ & _).
  split; rewrite ?F3, F4; [|done].
  intros r. rewrite dispose_all_heap. destruct (decide (r ∈ l)); [by intros [? ?]|].
  apply Hh.
Qed.

Lemma cache_ok_new : cache_ok (LRUCache.new LRUCount).
Proof.
  split; [split; [apply NoDup_nil_2 | constructor]|]. split; [done|].
  unfold LRUCache.Map_size. simpl. unfold LRUCount. lia.
Qed.

Lemma copy_caches image s :
  tileImageCache (copyImageBitMap image s).2 = tileImageCache s ∧
  tileBufferCache (copyImageBitMap image s).2 = tileBufferCache s.
Proof. unfold copyImageBitMap. by destruct (heap s !! image). Qed.

Lemma state_ok_init : state_ok init.
Proof.
  split; [apply registry_wf_init|]. split.
  { intros T. unfold group, init. cbn [CONTROLCACHE]. rewrite lookup_empty. constructor. }
  split; [apply cache_ok_new|]. split; [apply cache_ok_new|].
  split; cbn [init heap tileImageCache LRUCache.new LRUCache.data]; [|constructor].
  intros r. rewrite lookup_empty. by intros [? ?].
Qed.

Lemma state_ok_fetchTile url o s : state_ok s → state_ok (fetchTile url o s).2.
Proof.
  intros (Hwf & Hnd & Hic & Hbc & Hst).
  assert (Hcopy : ∀ image s', registry_wf s' ∧ registry_nodup s' →
            cache_ok (tileImageCache s') → cache_ok (tileBufferCache s') → store_ok s' →
            state_ok (copyImageBitMap image s').2).
  { intros image s' Hr Hi Hb Hs.
    destruct (copyImageBitMap_registry image s') as [R1 R2].
    destruct (copy_caches image s') as [C1 C2].
    destruct (registry_ok_frame s' (copyImageBitMap image s').2 R1 R2 Hr) as [? ?].
    split; [done|]. split; [done|]. rewrite C1, C2.
    split; [done|]. split; [done|]. by apply store_ok_copy. }
  unfold fetchTile. destruct url as [url|image].
  - destruct (__taskId o) as [taskId|]; [|done].
    destruct (falsy (Some taskId)); [done|].
    destruct (LRUCache.get url (tileImageCache (log (CacheLookup ImageCache url) s))).1
      as [image|].
    + pose proof (Hcopy image (log (CacheLookup ImageCache url) s)) as H.
      destruct (copyImageBitMap image (log (CacheLookup ImageCache url) s)) as [r s'].
      apply H; done.
    + cbn [newAbortController snd].
      destruct (registry_ok_register taskId s) as [R1 R2]; [done|].
      split; [|split]; [exact R1 | exact R2 | done].
  - pose proof (Hcopy image s) as H.
    destruct (copyImageBitMap image s) as [r s']. apply H; done.
Qed.

Lemma state_ok_fetchTileBuffer url o s :
  state_ok s → state_ok (fetchTileBuffer url o s).2.
Proof.
  intros (Hwf & Hnd & Hic & Hbc & Hst). unfold fetchTileBuffer.
  destruct (__taskId o) as [taskId|]; [|done].
  destruct (falsy (Some taskId)); [done|].
  destruct (LRUCache.get url (tileBufferCache (log (CacheLookup BufferCache url) s))).1
    as [buffer|]; [done|].
  cbn [newAbortController snd].
  destruct (registry_ok_register taskId s) as [R1 R2]; [done|].
  split; [|split]; [exact R1 | exact R2 | done].
Qed.

Lemma state_ok_finishFetch control s : state_ok s → state_ok (finishFetch control s).
Proof.
  intros (Hwf & Hnd & Hic & Hbc & Hst).
  destruct (registry_ok_finishFetch control s) as [R1 R2]; [done|].
  split; [|split]; [exact R1 | exact R2 | done].
Qed.

Lemma abort_all_frame e l s :
  heap (foldl (λ s control, abort control e s) s l) = heap s ∧
  next_ref (foldl (λ s control, abort control e s) s l) = next_ref s ∧
  tileImageCache (foldl (λ s control, abort control e s) s l) = tileImageCache s ∧
  tileBufferCache (foldl (λ s control, abort control e s) s l) = tileBufferCache s.
Proof.
  revert s. induction l as [|c l IH]; intros s; cbn [foldl]; [done|].
  destruct (IH (abort c e s)) as (-> & -> & -> & ->).
  unfold abort. by destruct (aborted s !! c).
Qed.

Lemma state_ok_cancelFetch T s : state_ok s → state_ok (cancelFetch T s).
Proof.
  intros (Hwf & Hnd & Hic & Hbc & Hst).
  destruct (registry_ok_cancelFetch T s) as [R1 R2]; [done|].
  split; [exact R1|]. split; [exact R2|].
  unfold cancelFetch. cbn [set_CONTROLCACHE tileImageCache tileBufferCache].
  destruct (abort_all_frame FetchCancelError (group T s) s) as (A1 & A2 & A3 & A4).
  rewrite A3, A4. split; [done|]. split; [done|].
  eapply store_ok_frame; [..|exact Hst]; cbn [heap next_ref tileImageCache]; done.
Qed.

Lemma state_ok_image_add url pixels s :
  state_ok s →
  ∃ s', tileImageCache_add url (alloc pixels s).1 (alloc pixels s).2 = Some s' ∧
        state_ok s'.
Proof.
  intros (Hwf & Hnd & (Hiwf & Himax & Hisz) & Hbc & Hst).
  unfold tileImageCache_add. cbn [alloc fst snd tileImageCache].
  destruct (add_capacity_aux truthy (tileImageCache s) url (Some (next_ref s)))
    as (c' & removed & Hadd & Hwf' & Hmax' & Hsz'); [done..|].
  rewrite Hadd. cbn [mbind option_bind]. eexists. split; [done|].
  set (sa := set_tileImageCache c' _).
  destruct (dispose_all_frame removed sa) as (D1 & D2 & D3 & D4 & D5 & D6).
  split; [|split]; [..|split; [|split]].
  - eapply registry_wf_frame; [exact D1 | exact D2 | done].
  - intros U. unfold group. rewrite D1. apply Hnd.
  - rewrite D3. subst sa. cbn [set_tileImageCache tileImageCache].
    split; [done|]. split; [lia | done].
  - by rewrite D6.
  - apply store_ok_dispose. destruct Hst as [Hh Hc]. subst sa.
    split; cbn [set_tileImageCache heap next_ref tileImageCache].
    + intros r. destruct (decide (r = next_ref s)) as [->|Hne]; [lia|].
      rewrite lookup_insert_ne by done. intros H. apply Hh in H. lia.
    + apply Forall_forall. intros e He.
      destruct (add_entries truthy _ _ _ _ _ e Hadd He) as [He'| ->]; [|simpl; lia].
      rewrite Forall_forall in Hc. apply Hc in He'. lia.
Qed.

Lemma state_ok_alloc pixels s : state_ok s → state_ok (alloc pixels s).2.
Proof.
  intros (Hwf & Hnd & Hic & Hbc & Hst).
  split; [done|]. split; [done|]. split; [done|]. split; [done|].
  by apply store_ok_alloc.
Qed.

Lemma state_ok_copy image s : state_ok s → state_ok (copyImageBitMap image s).2.
Proof.
  intros Hs. unfold copyImageBitMap. destruct (heap s !! image) as [pixels|]; [|done].
  by apply (state_ok_alloc pixels).
Qed.

Lemma state_ok_fetchTile_settle url o control res s :
  state_ok s →
  ∃ r s', fetchTile_settle url o control res s = Some (r, s') ∧ state_ok s'.
Proof.
  intros Hs. destruct res as [e|ok body [pixels|]]; cbn [fetchTile_settle].
  - eexists _, _. split; [done|]. by apply state_ok_finishFetch.
  - destruct (state_ok_image_add url pixels s Hs) as (sb & Hadd & Hsb).
    pose proof (state_ok_alloc pixels s Hs) as Hsa.
    destruct (alloc pixels s) as [image sa]. cbn [fst snd] in Hadd, Hsa.
    assert (Hsc : ∃ sc, (if disableCache o then Some sa else tileImageCache_add url image sa)
                        = Some sc ∧ state_ok sc).
    { destruct (disableCache o); eauto. }
    destruct Hsc as (sc & -> & Hsc). cbn [mbind option_bind].
    pose proof (state_ok_copy image (finishFetch control sc)
                  (state_ok_finishFetch control sc Hsc)) as Hc.
    destruct (copyImageBitMap image (finishFetch control sc)) as [r s2].
    eexists _, _. split; [done|]. exact Hc.
  - eexists _, _. split; [done|]. by apply state_ok_finishFetch.
Qed.

Lemma state_ok_fetchTileBuffer_settle url o control res s :
  state_ok s →
  ∃ r s', fetchTileBuffer_settle url o control res s = Some (r, s') ∧ state_ok s'.
Proof.
  intros Hs. destruct res as [e|ok body bitmap]; cbn [fetchTileBuffer_settle].
  - eexists _, _. split; [done|]. by apply state_ok_finishFetch.
  - pose proof (state_ok_alloc body s Hs) as Hsa.
    destruct (alloc body s) as [buffer sa]. cbn [snd] in Hsa.
    assert (Hsc : ∃ sc, (if disableCache o then Some sa else tileBufferCache_add url buffer sa)
                        = Some sc ∧ state_ok sc).
    { destruct (disableCache o); [eauto|].
      destruct Hsa as (Hwf & Hnd & Hic & (Hbwf & Hbmax & Hbsz) & Hst).
      unfold tileBufferCache_add.
      destruct (add_capacity_aux truthy (tileBufferCache sa) url (Some buffer))
        as (c' & removed & -> & Hwf' & Hmax' & Hsz'); [done..|].
      cbn [mbind option_bind]. eexists. split; [done|].
      split; [done|]. split; [done|]. split; [done|].
      split; [|done]. cbn [set_tileBufferCache tileBufferCache].
      split; [done|]. split; [lia | done]. }
    destruct Hsc as (sc & -> & Hsc). cbn [mbind option_bind copyBuffer].
    eexists _, _. split; [done|]. by apply state_ok_finishFetch.
Qed.

(** X11.  The invariant of the module state (groups disjoint and free of
    duplicates, caches within their capacity, references allocated) holds at
    start-up and is kept by every operation of the module, and both promise
    chains return under it.  Task ids are not names of members of
    [Object.prototype]: for those [CONTROLCACHE[taskId]] reads the inherited
    member. *)
Theorem state_ok_is_invariant :
  state_ok init ∧
  (∀ s url o, (∀ T, __taskId o = Some T → T ∉ JSObject.Object_prototype) →
     state_ok s → state_ok (fetchTile url o s).2) ∧
  (∀ s url o, (∀ T, __taskId o = Some T → T ∉ JSObject.Object_prototype) →
     state_ok s → state_ok (fetchTileBuffer url o s).2) ∧
  (∀ s url o control res, state_ok s →
     ∃ r s', fetchTile_settle url o control res s = Some (r, s') ∧ state_ok s') ∧
  (∀ s url o control res, state_ok s →
     ∃ r s', fetchTileBuffer_settle url o control res s = Some (r, s') ∧ state_ok s') ∧
  (∀ s T, T ∉ JSObject.Object_prototype →
     state_ok s → state_ok (cancelFetch T s)) ∧
  (∀ s control, state_ok s → state_ok (finishFetch control s)).
Proof.
  split; [apply state_ok_init|].
  split; [intros; by apply state_ok_fetchTile|].
  split; [intros; by apply state_ok_fetchTileBuffer|].
  split; [intros; by apply state_ok_fetchTile_settle|].
  split; [intros; by apply state_ok_fetchTileBuffer_settle|].
  split; [intros; by apply state_ok_cancelFetch|].
  intros; by apply state_ok_finishFetch.
Qed.
End Invariant.

Lemma own_name_T : "T"%string ∉ JSObject.Object_prototype.
Proof.
  apply (bool_decide_unpack ("T"%string ∉ JSObject.Object_prototype)).
  vm_compute. exact I.
Qed.

Lemma finishFetch_drops_controller_witness :
  TileGet.group "U" (TileGet.finishFetch 0%nat Examples.two_pending)
  = TileGet.group "U" Examples.two_pending ∧
  0%nat ∉ TileGet.group "T" (TileGet.finishFetch 0%nat Examples.two_pending).
Proof.
  destruct (finishFetch_drops_controller 0%nat Examples.two_pending)
    as (_ & _ & H3 & H4).
  split.
  - apply H3.
    apply (bool_decide_unpack (0%nat ∉ TileGet.group "U" Examples.two_pending)).
    vm_compute. exact I.
  - apply H4.
    apply (bool_decide_unpack (NoDup (TileGet.group "T" Examples.two_pending))).
    vm_compute. exact I.
Defined.

Lemma cancelFetch_unknown_task_witness :
  (TileGet.CONTROLCACHE TileGet.init !! "T"%string = None →
   TileGet.cancelFetch "T" TileGet.init = TileGet.init) ∧
  TileGet.cancelFetch "T" (TileGet.cancelFetch "T" TileGet.init)
  = TileGet.cancelFetch "T" TileGet.init.
Proof.
  apply (cancelFetch_unknown_task TileGet.init "T"). apply own_name_T.
Defined.

Lemma settled_request_leaves_groups_witness :
  ∃ r s2,
    TileGet.fetchTile_settle "a" Examples.task_T 0%nat
      (TileGet.FetchRejected TileGet.TransportError)
      (TileGet.fetchTile (TileGet.Url "a") Examples.task_T TileGet.init).2
    = Some (r, s2) ∧
    ∀ U, TileGet.group U s2 = TileGet.group U TileGet.init.
Proof.
  pose proof state_ok_init as (_ & _ & Hcache & _).
  refine (settled_request_leaves_groups TileGet.init "a" Examples.task_T "a" "T" 0%nat
            _ _ _ _ _ (TileGet.FetchRejected TileGet.TransportError)).
  - apply own_name_T.
  - apply registry_wf_init.
  - exact Hcache.
  - reflexivity.
Defined.

Lemma fetched_tile_is_served_from_cache_witness :
  ∃ r s2,
    TileGet.fetchTile_settle "a" Examples.task_T 0%nat
      (TileGet.FetchResponse true [1] (Some [1; 2])) TileGet.init
    = Some (TileGet.Resolve r, s2) ∧
    TileGet.heap s2 !! r = Some [1; 2] ∧
    ∃ r' s3,
      TileGet.fetchTile (TileGet.Url "a") Examples.task_T s2
      = (TileGet.Settled (TileGet.Resolve r'), s3) ∧
      r' ≠ r ∧ TileGet.heap s3 !! r' = Some [1; 2] ∧
      TileGet.heap s3 !! r = Some [1; 2] ∧
      TileGet.trace s3
      = TileGet.trace s2 ++ [TileGet.CacheLookup TileGet.ImageCache "a"].
Proof.
  pose proof state_ok_init as (_ & _ & Hcache & _ & Hstore).
  apply (fetched_tile_is_served_from_cache TileGet.init "a" Examples.task_T "T" 0%nat
           [1] [1; 2]).
  - exact Hcache.
  - simpl. unfold TileGet.LRUCount. lia.
  - exact Hstore.
  - reflexivity.
  - discriminate.
  - reflexivity.
Defined.

Lemma state_ok_is_invariant_witness :
  TileGet.state_ok
    (TileGet.cancelFetch "T"
       (TileGet.fetchTile (TileGet.Url "a") Examples.task_T TileGet.init).2).
Proof.
  destruct state_ok_is_invariant as (H0 & H1 & _ & _ & _ & H5 & _).
  apply H5; [apply own_name_T|].
  apply H1; [|exact H0].
  intros T [= <-]. apply own_name_T.
Defined.

(** ** Over-zoom *)

Section OverzoomFacts.
Import JS Overzoom.

Lemma parent_iter (n : nat) x y z :
  Nat.iter n parent (x, y, z) = (x / 2 ^ Z.of_nat n, y / 2 ^ Z.of_nat n, z - Z.of_nat n).
Proof.
  induction n as [|n IH].
  - simpl. by rewrite !Z.div_1_r, Z.sub_0_r.
  - rewrite Nat.iter_succ, IH. unfold parent.
    rewrite Nat2Z.inj_succ, Z.pow_succ_r by lia.
    rewrite !Z.div_div by lia. f_equal; [f_equal|lia]; f_equal; lia.
Qed.

Lemma div_of_Z a b : b ≠ 0 → div (of_Z a) (of_Z b) = Fin (inject_Z a / inject_Z b).
Proof.
  intros Hb. unfold div, of_Z.
  replace (Qzero (inject_Z b)) with false; [done|].
  symmetry. unfold Qzero. apply not_true_is_false. intros H.
  apply Qeq_bool_iff in H. unfold Qeq in H. simpl in H. lia.
Qed.

Lemma overzoom_closed_form x y z maxAvailableZoom :
  maxAvailableZoom < z →
  overzoom x y z maxAvailableZoom =
  Slice (x / 2 ^ (z - maxAvailableZoom)) (y / 2 ^ (z - maxAvailableZoom))
        maxAvailableZoom
        (Some (Fin (inject_Z (x mod 2 ^ (z - maxAvailableZoom))
                    / inject_Z (2 ^ (z - maxAvailableZoom))),
               Fin (inject_Z (y mod 2 ^ (z - maxAvailableZoom))
                    / inject_Z (2 ^ (z - maxAvailableZoom))),
               Fin (inject_Z 1 / inject_Z (2 ^ (z - maxAvailableZoom))),
               Fin (inject_Z 1 / inject_Z (2 ^ (z - maxAvailableZoom))))).
Proof.
  intros Hz. unfold overzoom. rewrite bool_decide_eq_true_2 by lia.
  rewrite parent_iter, Z2Nat.id by lia.
  set (k := z - maxAvailableZoom). set (s := 2 ^ k).
  assert (Hs : 0 < s) by (apply Z.pow_pos_nonneg; lia).
  assert (Hx : x / s * s ≤ x) by (rewrite Z.mul_comm; apply Z.mul_div_le; lia).
  assert (Hy : y / s * s ≤ y) by (rewrite Z.mul_comm; apply Z.mul_div_le; lia).
  rewrite !bool_decide_eq_false_2 by lia.
  replace (x / s * s + s - x / s * s) with s by lia.
  replace (y / s * s + s - y / s * s) with s by lia.
  replace (x - x / s * s) with (x mod s) by (rewrite Z.mod_eq by lia; lia).
  replace (y - y / s * s) with (y mod s) by (rewrite Z.mod_eq by lia; lia).
  by rewrite !div_of_Z by lia.
Qed.

(** X12.  Over-zoom in closed form: [k] levels above [maxAvailableZoom] the tile
    retrieved is the ancestor [(x / 2^k, y / 2^k)] at [maxAvailableZoom],
    and the window cut out of it starts at the fraction [(x mod 2^k) / 2^k],
    [(y mod 2^k) / 2^k] and is [1 / 2^k] wide and high.  The correction
    [startX--] is never applied. *)
Theorem overzoom_ancestor_window x y z maxAvailableZoom :
  maxAvailableZoom < z →
  overzoom x y z maxAvailableZoom =
  Slice (x / 2 ^ (z - maxAvailableZoom)) (y / 2 ^ (z - maxAvailableZoom))
        maxAvailableZoom
        (Some (Fin (inject_Z (x mod 2 ^ (z - maxAvailableZoom))
                    / inject_Z (2 ^ (z - maxAvailableZoom))),
               Fin (inject_Z (y mod 2 ^ (z - maxAvailableZoom))
                    / inject_Z (2 ^ (z - maxAvailableZoom))),
               Fin (inject_Z 1 / inject_Z (2 ^ (z - maxAvailableZoom))),
               Fin (inject_Z 1 / inject_Z (2 ^ (z - maxAvailableZoom))))).
Proof. apply overzoom_closed_form. Qed.

(** X13.  The tile retrieved is never finer than [maxAvailableZoom], and the
    window lies inside the ancestor tile. *)
Theorem overzoom_stays_inside x y z maxAvailableZoom :
  tileZ (overzoom x y z maxAvailableZoom) = Z.min z maxAvailableZoom ∧
  (z ≤ maxAvailableZoom → overzoom x y z maxAvailableZoom = Slice x y z None) ∧
  (maxAvailableZoom < z →
   ∃ dx dy w h : Q,
     scales (overzoom x y z maxAvailableZoom) = Some (Fin dx, Fin dy, Fin w, Fin h) ∧
     (0 <= dx)%Q ∧ (dx + w <= 1)%Q ∧ (0 <= dy)%Q ∧ (dy + h <= 1)%Q ∧ (0 < w)%Q ∧ (0 < h)%Q).
Proof.
  split; [|split].
  - destruct (decide (maxAvailableZoom < z)) as [Hz|Hz].
    + rewrite overzoom_closed_form by done. cbn [tileZ]. lia.
    + unfold overzoom. rewrite bool_decide_eq_false_2 by lia. cbn [tileZ]. lia.
  - intros Hz. unfold overzoom. by rewrite bool_decide_eq_false_2 by lia.
  - intros Hz. rewrite overzoom_closed_form by done. cbn [scales].
    set (s := 2 ^ (z - maxAvailableZoom)).
    assert (Hs : 0 < s) by (apply Z.pow_pos_nonneg; lia).
    pose proof (Z.mod_pos_bound x s Hs) as Hx.
    pose proof (Z.mod_pos_bound y s Hs) as Hy.
    eexists _, _, _, _. split; [reflexivity|].
    destruct s as [|p|p]; try lia.
    unfold Qle, Qlt, Qdiv, Qmult, Qplus, Qinv, inject_Z; simpl.
    repeat split; nia.
Qed.
End OverzoomFacts.

Lemma overzoom_ancestor_window_witness :
  Overzoom.overzoom 5 3 3 1 =
  Overzoom.Slice (5 / 2 ^ (3 - 1)) (3 / 2 ^ (3 - 1)) 1
    (Some (JS.Fin (inject_Z (5 mod 2 ^ (3 - 1)) / inject_Z (2 ^ (3 - 1))),
           JS.Fin (inject_Z (3 mod 2 ^ (3 - 1)) / inject_Z (2 ^ (3 - 1))),
           JS.Fin (inject_Z 1 / inject_Z (2 ^ (3 - 1))),
           JS.Fin (inject_Z 1 / inject_Z (2 ^ (3 - 1))))).
Proof. apply (overzoom_ancestor_window 5 3 3 1). lia. Defined.

Lemma overzoom_stays_inside_witness :
  ∃ dx dy w h : Q,
    Overzoom.scales (Overzoom.overzoom 5 3 3 1)
    = Some (JS.Fin dx, JS.Fin dy, JS.Fin w, JS.Fin h) ∧
    (0 <= dx)%Q ∧ (dx + w <= 1)%Q ∧ (0 <= dy)%Q ∧ (dy + h <= 1)%Q ∧
    (0 < w)%Q ∧ (0 < h)%Q.
Proof.
  destruct (overzoom_stays_inside 5 3 3 1) as (_ & _ & H). apply H. lia.
Defined.

(** ** More on coverage planning *)

Section NumberFacts.
Import JS.



Lemma Math_min_Fin p q :
  Math_min (Fin p) (Fin q) = Fin (if Qle_bool p q then p else q).
Proof. unfold Math_min, lt. by destruct (Qle_bool p q). Qed.

Lemma Math_max_Fin p q :
  Math_max (Fin p) (Fin q) = Fin (if Qle_bool q p then p else q).
Proof. unfold Math_max, lt. by destruct (Qle_bool q p). Qed.

Lemma Qle_bool_false p q : Qle_bool p q = false → (q < p)%Q.
Proof.
  intros H. apply Qnot_le_lt. intros Hle. apply Qle_bool_iff in Hle. congruence.
Qed.
End NumberFacts.

Section ExtentFacts.
Import JS Planner.


Lemma extent_step_finite a b c d ps :
  Forall finite_point ps → (a <= c)%Q → (b <= d)%Q →
  ∃ a' b' c' d',
    foldl (λ '(minx, miny, maxx, maxy) '(x, y),
             (Math_min minx x, Math_min miny y, Math_max maxx x, Math_max maxy y))
          (Fin a, Fin b, Fin c, Fin d) ps = (Fin a', Fin b', Fin c', Fin d') ∧
    (a' <= a)%Q ∧ (b' <= b)%Q ∧ (c <= c')%Q ∧ (d <= d')%Q ∧
    (a' <= c')%Q ∧ (b' <= d')%Q ∧
    ∀ x y, (Fin x, Fin y) ∈ ps →
           (a' <= x)%Q ∧ (x <= c')%Q ∧ (b' <= y)%Q ∧ (y <= d')%Q.
Proof.
  intros Hps. revert a b c d.
  induction Hps as [|p ps (x & y & ->) _ IH]; intros a b c d Hac Hbd.
  - exists a, b, c, d. cbn [foldl]. split; [done|].
    do 6 (split; [lra|]). intros x y Hxy. by apply elem_of_nil in Hxy.
  - cbn [foldl]. rewrite !Math_min_Fin, !Math_max_Fin.
    set (a1 := if Qle_bool a x then a else x).
    set (b1 := if Qle_bool b y then b else y).
    set (c1 := if Qle_bool x c then c else x).
    set (d1 := if Qle_bool y d then d else y).
    assert (Ha1 : (a1 <= a)%Q ∧ (a1 <= x)%Q).
    { subst a1. destruct (Qle_bool a x) eqn:E;
        [apply Qle_bool_iff in E | apply Qle_bool_false in E]; lra. }
    assert (Hb1 : (b1 <= b)%Q ∧ (b1 <= y)%Q).
    { subst b1. destruct (Qle_bool b y) eqn:E;
        [apply Qle_bool_iff in E | apply Qle_bool_false in E]; lra. }
    assert (Hc1 : (c <= c1)%Q ∧ (x <= c1)%Q).
    { subst c1. destruct (Qle_bool x c) eqn:E;
        [apply Qle_bool_iff in E | apply Qle_bool_false in E]; lra. }
    assert (Hd1 : (d <= d1)%Q ∧ (y <= d1)%Q).
    { subst d1. destruct (Qle_bool y d) eqn:E;
        [apply Qle_bool_iff in E | apply Qle_bool_false in E]; lra. }
    destruct (IH a1 b1 c1 d1) as (a' & b' & c' & d' & Hf & H1 & H2 & H3 & H4 & H5 & H6 & Hin);
      [lra | lra |].
    exists a', b', c', d'. split; [exact Hf|].
    do 6 (split; [lra|]). intros x0 y0 Hxy.
    apply elem_of_cons in Hxy as [Heq|Hxy];
      [injection Heq as -> -> | apply Hin in Hxy]; (split; [lra|split; [lra|split; lra]]).
Qed.

(** X14.  The extent of a non-empty list of finite points is a well-formed finite
    box that contains every point of the list. *)
Theorem extent_contains_points ps :
  ps ≠ [] → Forall finite_point ps →
  ∃ minx miny maxx maxy,
    extent ps = (Fin minx, Fin miny, Fin maxx, Fin maxy) ∧
    (minx <= maxx)%Q ∧ (miny <= maxy)%Q ∧
    ∀ x y, (Fin x, Fin y) ∈ ps →
           (minx <= x)%Q ∧ (x <= maxx)%Q ∧ (miny <= y)%Q ∧ (y <= maxy)%Q.
Proof.
  intros Hne Hps. destruct ps as [|p ps]; [done|].
  apply Forall_cons in Hps as [(x & y & ->) Hps].
  unfold extent. cbn [foldl]. 
  change (Math_min Infinity (Fin x)) with (Fin x).
  change (Math_min Infinity (Fin y)) with (Fin y).
  change (Math_max (neg Infinity) (Fin x)) with (Fin x).
  change (Math_max (neg Infinity) (Fin y)) with (Fin y).
  destruct (extent_step_finite x y x y ps Hps) as
    (a' & b' & c' & d' & Hf & H1 & H2 & H3 & H4 & H5 & H6 & Hin); [lra | lra |].
  exists a', b', c', d'. split; [exact Hf|]. split; [done|]. split; [done|].
  intros x0 y0 Hxy. apply elem_of_cons in Hxy as [Heq|Hxy].
  - injection Heq as -> ->. split; [lra|split; [lra|split; lra]].
  - by apply Hin.
Qed.
End ExtentFacts.

Section GridFacts.
Import JS Planner.
Context {G : GeoLib}.




Lemma bind_singleton_length {A B} (f : A → B) (l : list A) :
  length (l ≫= λ a, [f a]) = length l.
Proof. induction l as [|a l IH]; [done|]. rewrite bind_cons. simpl. by rewrite IH. Qed.

Lemma grid_length {A} (rows cols : list Z) (mk : Z → Z → A) :
  length (row ← rows; col ← cols; [mk col row]) = (length rows * length cols)%nat.
Proof.
  induction rows as [|r rows IH]; [done|].
  rewrite bind_cons, length_app, IH, bind_singleton_length. simpl. lia.
Qed.

Lemma grid_NoDup {A} (rows cols : list Z) (mk : Z → Z → A) :
  (∀ c r c' r', mk c r = mk c' r' → c = c' ∧ r = r') →
  NoDup rows → NoDup cols → NoDup (row ← rows; col ← cols; [mk col row]).
Proof.
  intros Hinj Hr Hc. apply NoDup_bind; [| |done].
  - intros r1 r2 t _ _ H1 H2.
    apply list_elem_of_bind in H1 as (c1 & H1 & _). apply list_elem_of_singleton in H1.
    apply list_elem_of_bind in H2 as (c2 & H2 & _). apply list_elem_of_singleton in H2.
    subst t. by apply Hinj in H2 as [_ ?].
  - intros r _. apply NoDup_bind; [| |done].
    + intros c1 c2 t _ _ H1 H2.
      apply list_elem_of_singleton in H1. apply list_elem_of_singleton in H2.
      subst t. by apply Hinj in H2 as [? _].
    + intros c _. apply NoDup_singleton.
Qed.

Lemma cal4326Tiles_finite x y z zoomOffset isGCJ02 c0 c1 r0 r1 :
  range4326 x y z isGCJ02 = (Int c0, Int c1, Int r0, Int r1) → c0 ≤ c1 → r0 ≤ r1 →
  ∃ plan, cal4326Tiles x y z zoomOffset isGCJ02 = Some (Some plan) ∧
          tiles plan = (row ← seqZ r0 (r1 - r0 + 1); col ← seqZ c0 (c1 - c0 + 1);
                        [(col - 1, row, z + zoomOffset)]).
Proof.
  intros Hr Hc Hrow. unfold cal4326Tiles. cbn [ORIGIN]. rewrite Hr.
  cbn [ilt]. rewrite !bool_decide_eq_false_2 by lia. cbn [orb].
  rewrite enumerate_finite by done. simpl. eauto.
Qed.

Lemma cal3857Tiles_finite x y z zoomOffset isGCJ02 c0 c1 r0 r1 :
  range3857 x y z isGCJ02 = (Int c0, Int c1, Int r0, Int r1) → c0 ≤ c1 → r0 ≤ r1 →
  ∃ plan, cal3857Tiles x y z zoomOffset isGCJ02 = Some (Some plan) ∧
          tiles plan = (row ← seqZ r0 (r1 - r0 + 1); col ← seqZ c0 (c1 - c0 + 1);
                        [(col, row, z + zoomOffset)]).
Proof.
  intros Hr Hc Hrow. unfold cal3857Tiles. rewrite Hr.
  cbn [ilt]. rewrite !bool_decide_eq_false_2 by lia. cbn [orb].
  rewrite enumerate_finite by done. simpl. eauto.
Qed.

(** X16.  A finite range that is not inverted yields a plan with one tile per
    cell of the range and no tile twice; in particular the plan is not
    empty. *)
Theorem plan_has_one_tile_per_cell x y z zoomOffset isGCJ02 c0 c1 r0 r1 :
  c0 ≤ c1 → r0 ≤ r1 →
  (range4326 x y z isGCJ02 = (Int c0, Int c1, Int r0, Int r1) →
   ∃ plan, cal4326Tiles x y z zoomOffset isGCJ02 = Some (Some plan) ∧
           Z.of_nat (length (tiles plan)) = (r1 - r0 + 1) * (c1 - c0 + 1) ∧
           NoDup (tiles plan)) ∧
  (range3857 x y z isGCJ02 = (Int c0, Int c1, Int r0, Int r1) →
   ∃ plan, cal3857Tiles x y z zoomOffset isGCJ02 = Some (Some plan) ∧
           Z.of_nat (length (tiles plan)) = (r1 - r0 + 1) * (c1 - c0 + 1) ∧
           NoDup (tiles plan)).
Proof.
  intros Hc Hr. split; intros Hrange.
  - destruct (cal4326Tiles_finite x y z zoomOffset isGCJ02 c0 c1 r0 r1)
      as (plan & Hp & Ht); [done..|].
    exists plan. rewrite Ht. split; [done|]. split.
    + rewrite grid_length, !length_seqZ. lia.
    + apply grid_NoDup; [|apply NoDup_seqZ..].
      intros c r c' r' [= ? ?]. lia.
  - destruct (cal3857Tiles_finite x y z zoomOffset isGCJ02 c0 c1 r0 r1)
      as (plan & Hp & Ht); [done..|].
    exists plan. rewrite Ht. split; [done|]. split.
    + rewrite grid_length, !length_seqZ. lia.
    + apply grid_NoDup; [|apply NoDup_seqZ..].
      intros c r c' r' [= ? ?]. lia.
Qed.
End GridFacts.

Lemma extent_contains_points_witness :
  ∃ minx miny maxx maxy,
    Planner.extent [(JS.of_Z 1, JS.of_Z 2); (JS.of_Z 3, JS.of_Z 0)]
    = (JS.Fin minx, JS.Fin miny, JS.Fin maxx, JS.Fin maxy) ∧
    (minx <= maxx)%Q ∧ (miny <= maxy)%Q ∧
    ∀ x y, (JS.Fin x, JS.Fin y) ∈ [(JS.of_Z 1, JS.of_Z 2); (JS.of_Z 3, JS.of_Z 0)] →
           (minx <= x)%Q ∧ (x <= maxx)%Q ∧ (miny <= y)%Q ∧ (y <= maxy)%Q.
Proof.
  apply (extent_contains_points [(JS.of_Z 1, JS.of_Z 2); (JS.of_Z 3, JS.of_Z 0)]).
  - discriminate.
  - repeat constructor; unfold Planner.finite_point, JS.of_Z; eauto.
Defined.

Lemma plan_has_one_tile_per_cell_witness :
  (∃ plan, @Planner.cal4326Tiles Examples.world_geo 0 0 0 0 false = Some (Some plan) ∧
           Z.of_nat (length (Planner.tiles plan)) = (0 - 0 + 1) * (1 - 0 + 1) ∧
           NoDup (Planner.tiles plan)) ∧
  (∃ plan, @Planner.cal3857Tiles Examples.world_geo 0 0 0 0 false = Some (Some plan) ∧
           Z.of_nat (length (Planner.tiles plan)) = (0 - -1 + 1) * (0 - 0 + 1) ∧
           NoDup (Planner.tiles plan)).
Proof.
  split.
  - apply (@plan_has_one_tile_per_cell Examples.world_geo 0 0 0 0 false 0 1 0 0);
      [lia | lia | vm_compute; reflexivity].
  - apply (@plan_has_one_tile_per_cell Examples.world_geo 0 0 0 0 false 0 0 (-1) 0);
      [lia | lia | vm_compute; reflexivity].
Defined.

(** ** More on the resampler guard and seam repair *)

Section GuardFacts.
Import JS Planner Resampler.



(** X18.  When the crop of the mosaic has no pixel, its extent is the initial
    [[Infinity, Infinity, -Infinity, -Infinity]] and pass 2 returns no
    raster whatever the reference box is. *)
Theorem empty_extent_is_degenerate {Image}
    (rasterize : pixelsresult → BBOXtype → integer → integer → bool → Image)
    (mbbox : BBOXtype) (debug : bool) :
  transformTiles rasterize (Pixels [] (extent [])) mbbox debug = None.
Proof.
  apply transformTiles_None. cbn [pixels_bbox extent foldl].
  destruct mbbox as [[[xmin ymin] xmax] ymax]. unfold raster_size.
  assert (H : ∀ a, ∃ i, Math_round (div (sub (neg Infinity) Infinity) a) = i ∧
                        (i = INaN ∨ ∃ s, i = IInf s)).
  { intros [|s|q]; cbn; eauto. }
  destruct (H (div (sub xmax xmin) TILESIZE)) as (i & -> & Hi).
  apply degenerate_iff. destruct Hi as [->|[s ->]]; cbn [fst snd]; eauto.
Qed.
End GuardFacts.

Section SeamFacts.
Import Resampler.

Lemma wr_length data idx v : length (wr data idx v) = length data.
Proof. unfold wr. case_bool_decide; [done | apply length_insert]. Qed.

Lemma copy_pixel_length data idx1 idx2 : length (copy_pixel data idx1 idx2) = length data.
Proof. unfold copy_pixel. by rewrite !wr_length. Qed.

Lemma foldl_length {A} (f : list Z → A → list Z) l data :
  (∀ d a, length (f d a) = length d) → length (foldl f data l) = length data.
Proof.
  intros Hf. revert data. induction l as [|a l IH]; intros data; [done|].
  cbn [foldl]. by rewrite IH, Hf.
Qed.

Lemma fixCol_length width height data col1 col2 :
  length (fixCol width height data col1 col2) = length data.
Proof. unfold fixCol. apply foldl_length. intros. apply copy_pixel_length. Qed.

Lemma fixStep_length width height colBlanks data col :
  length (fixStep width height colBlanks data col) = length data.
Proof.
  rewrite fixStep_never_previous.
  destruct (_ && _); [apply fixCol_length | done].
Qed.

Lemma repair_length width height data :
  length (repair width height data) = length data.
Proof.
  unfold repair.
  set (d1 := if leftIsBlank width height data then fixLeft width height data else data).
  assert (H1 : length d1 = length data).
  { subst d1. destruct (leftIsBlank width height data); [|done].
    unfold fixLeft. apply foldl_length. intros. apply copy_pixel_length. }
  set (d2 := if bottomIsBlank width height d1 then fixBottom width height d1 else d1).
  assert (H2 : length d2 = length data).
  { subst d2. destruct (bottomIsBlank width height d1); [|done].
    unfold fixBottom. rewrite <- H1. apply foldl_length. intros. apply copy_pixel_length. }
  destruct (existsb id _); [|done].
  rewrite <- H2. apply foldl_length. intros. apply fixStep_length.
Qed.

Lemma leftIsBlank_first_column width height data :
  leftIsBlank width height data = colIsBlank width height data 1.
Proof.
  unfold leftIsBlank, colIsBlank. induction (upto height) as [|row l IH]; [done|].
  cbn [forallb]. rewrite IH.
  by replace (width * 4 * (row - 1) + 0 + 3) with (width * 4 * (row - 1) + (1 - 1) * 4 + 3)
    by lia.
Qed.

(** X19.  Seam repair keeps the size of the raster, and a raster that has no
    fully transparent column and whose last row is not fully transparent
    comes out unchanged. *)
Theorem seamless_raster_unchanged (img : ImageData) :
  length (data (checkBoundaryBlank img)) = length (data img) ∧
  width (checkBoundaryBlank img) = width img ∧
  height (checkBoundaryBlank img) = height img ∧
  (1 ≤ width img →
   (∀ col, 1 ≤ col ≤ width img → colIsBlank (width img) (height img) (data img) col = false) →
   bottomIsBlank (width img) (height img) (data img) = false →
   checkBoundaryBlank img = img).
Proof.
  split; [apply repair_length|]. split; [done|]. split; [done|].
  intros Hw Hcols Hbottom. destruct img as [w h d]. cbn [width height data] in *.
  unfold checkBoundaryBlank. cbn [width height data]. f_equal.
  unfold repair. rewrite leftIsBlank_first_column, Hcols by lia. rewrite Hbottom.
  replace (existsb id (colIsBlank w h d <$> upto w)) with false; [done|].
  symmetry. apply not_true_is_false. intros H.
  apply existsb_exists in H as (b & Hb & Hid). unfold id in Hid. subst b.
  apply list_elem_of_In, list_elem_of_fmap in Hb as (col & Hcol & Hin).
  unfold upto in Hin. apply elem_of_seqZ in Hin.
  rewrite Hcols in Hcol by lia. done.
Qed.
End SeamFacts.

Section SeamCopy.
Import Resampler.
Implicit Types (d : list Z) (i j : Z).

Lemma rd_wr_ne d i j v : j ≠ i → rd (wr d i v) j = rd d j.
Proof.
  intros Hne. unfold rd, wr. case_bool_decide; [done|].
  case_bool_decide; [done|]. rewrite list_lookup_insert_ne; [done|lia].
Qed.

Lemma rd_wr_eq d i v : 0 ≤ i < Z.of_nat (length d) → rd (wr d i v) i = v.
Proof.
  intros Hi. unfold rd, wr. rewrite !bool_decide_eq_false_2 by lia.
  rewrite list_lookup_insert_eq; [done|lia].
Qed.

(** Reading a raster after one pixel was copied. *)
Lemma copy_pixel_outside d i1 i2 j :
  ¬ (i1 ≤ j ≤ i1 + 3) → rd (copy_pixel d i1 i2) j = rd d j.
Proof.
  intros Hj. unfold copy_pixel. rewrite !rd_wr_ne by lia. done.
Qed.

Lemma copy_pixel_inside d i1 i2 ch :
  0 ≤ i1 → i1 + 3 < Z.of_nat (length d) → 0 ≤ ch ≤ 3 →
  rd (copy_pixel d i1 i2) (i1 + ch) = rd d (i2 + ch).
Proof.
  intros H0 H3 Hch. unfold copy_pixel.
  assert (ch = 0 ∨ ch = 1 ∨ ch = 2 ∨ ch = 3) as [-> | [-> | [-> | ->]]] by lia.
  - rewrite !rd_wr_ne by lia. rewrite Z.add_0_r. rewrite rd_wr_eq by lia.
    by rewrite Z.add_0_r.
  - rewrite !rd_wr_ne by lia. rewrite rd_wr_eq by (rewrite wr_length; lia). done.
  - rewrite !rd_wr_ne by lia. rewrite rd_wr_eq by (rewrite !wr_length; lia). done.
  - rewrite rd_wr_eq by (rewrite !wr_length; lia). done.
Qed.

Section Raster.
Variables width height : Z.
Hypothesis Hw : 1 ≤ width.

Lemma pixel_index_inj row col ch row' col' ch' :
  1 ≤ col ≤ width → 1 ≤ col' ≤ width → 0 ≤ ch ≤ 3 → 0 ≤ ch' ≤ 3 →
  pixel_index width row col ch = pixel_index width row' col' ch' →
  row = row' ∧ col = col' ∧ ch = ch'.
Proof.
  unfold pixel_index. intros Hc Hc' Hch Hch' Heq.
  assert (Hrow : row = row').
  { destruct (Z.lt_trichotomy row row') as [Hlt|[->|Hgt]]; [|done|].
    - assert (width * 4 ≤ width * 4 * (row' - 1) - width * 4 * (row - 1)) by nia. lia.
    - assert (width * 4 ≤ width * 4 * (row - 1) - width * 4 * (row' - 1)) by nia. lia. }
  subst row'. lia.
Qed.

Lemma pixel_index_bounds row col ch :
  1 ≤ row ≤ height → 1 ≤ col ≤ width → 0 ≤ ch ≤ 3 →
  0 ≤ pixel_index width row col 0 ∧ pixel_index width row col 3 < width * height * 4.
Proof.
  unfold pixel_index. intros Hr Hc Hch.
  assert (0 ≤ width * 4 * (row - 1)) by nia.
  assert (width * 4 * (row - 1) ≤ width * 4 * (height - 1)) by nia.
  lia.
Qed.

(** [fixCol] touches the pixels of column [col1] only. *)
Lemma fixCol_outside d col1 col2 j :
  1 ≤ col1 ≤ width →
  (∀ row ch, 0 ≤ ch ≤ 3 → j ≠ pixel_index width row col1 ch) →
  rd (fixCol width height d col1 col2) j = rd d j.
Proof.
  intros Hc Hj. unfold fixCol. generalize (upto height). intros rows. revert d.
  induction rows as [|row rows IH]; intros d; [done|]. cbn [foldl].
  rewrite IH. apply copy_pixel_outside. intros Hin.
  apply (Hj row (j - (width * 4 * (row - 1) + (col1 - 1) * 4))); [lia|].
  unfold pixel_index. lia.
Qed.

Lemma fixCol_rows_inside d col1 col2 rows row ch :
  Z.of_nat (length d) = width * height * 4 →
  1 ≤ col1 ≤ width → 1 ≤ col2 ≤ width → col1 ≠ col2 →
  NoDup rows → (∀ r, r ∈ rows → 1 ≤ r ≤ height) → row ∈ rows → 0 ≤ ch ≤ 3 →
  rd (foldl (λ data row,
               copy_pixel data ((width * 4) * (row - 1) + (col1 - 1) * 4)
                               ((width * 4) * (row - 1) + (col2 - 1) * 4)) d rows)
     (pixel_index width row col1 ch)
  = rd d (pixel_index width row col2 ch).
Proof.
  intros Hlen Hc1 Hc2 Hne Hnd Hrows Hrow Hch. revert d Hlen.
  induction rows as [|r0 rows IH]; intros d Hlen; [by apply elem_of_nil in Hrow|].
  apply NoDup_cons in Hnd as [Hr0 Hnd]. cbn [foldl].
  assert (Hb0 : 1 ≤ r0 ≤ height) by (apply Hrows; left).
  destruct (pixel_index_bounds r0 col1 0 Hb0 Hc1 ltac:(lia)) as [B0 B3].
  unfold pixel_index in B0, B3.
  apply elem_of_cons in Hrow as [->|Hrow].
  - (* the pixel is written now and never again *)
    transitivity (rd (copy_pixel d (width * 4 * (r0 - 1) + (col1 - 1) * 4)
                                   (width * 4 * (r0 - 1) + (col2 - 1) * 4))
                     (pixel_index width r0 col1 ch)).
    + clear IH. generalize (copy_pixel d (width * 4 * (r0 - 1) + (col1 - 1) * 4)
                                         (width * 4 * (r0 - 1) + (col2 - 1) * 4)).
      intros d'. revert d'. induction rows as [|r1 rows IH']; intros d'; [done|].
      cbn [foldl]. apply NoDup_cons in Hnd as [_ Hnd].
      assert (Hr1 : r1 ≠ r0).
      { intros ->. apply Hr0. left. }
      assert (Hb1 : 1 ≤ r1 ≤ height) by (apply Hrows; right; left).
      rewrite IH'; [| | done |].
      * apply copy_pixel_outside. unfold pixel_index.
        intros Hin. destruct (pixel_index_inj r0 col1 ch r1 col1
                                (pixel_index width r0 col1 ch - pixel_index width r1 col1 0))
          as (? & _); unfold pixel_index in *; try lia.
      * intros Hin. apply Hr0. by right.
      * intros r Hr. apply Hrows. apply elem_of_cons in Hr as [->|Hr]; [left|].
        right. by right.
    + unfold pixel_index. rewrite copy_pixel_inside by lia. done.
  - rewrite IH; [| done | intros r Hr; apply Hrows; by right | done
                 | by rewrite copy_pixel_length].
    apply copy_pixel_outside. unfold pixel_index.
    assert (row ≠ r0) by (intros ->; done).
    intros Hin. destruct (pixel_index_inj row col2 ch r0 col1
                            (pixel_index width row col2 ch - pixel_index width r0 col1 0))
      as (? & _); unfold pixel_index in *; try lia.
Qed.

(** The loop over the columns writes blank columns only. *)
Lemma fix_loop_outside colBlanks cols d j :
  (∀ col, col ∈ cols → 1 ≤ col ≤ width) →
  (∀ col row ch, col ∈ cols → at_index colBlanks (col - 1) = true → 0 ≤ ch ≤ 3 →
                 j ≠ pixel_index width row col ch) →
  rd (foldl (fixStep width height colBlanks) d cols) j = rd d j.
Proof.
  revert d. induction cols as [|c0 cols IH]; intros d Hcols Hj; [done|].
  cbn [foldl]. rewrite IH.
  - rewrite fixStep_never_previous.
    destruct (at_index colBlanks (c0 - 1)) eqn:Hc0; cbn [andb]; [|done].
    destruct (negb _); [|done].
    apply fixCol_outside; [apply Hcols; left|].
    intros row ch Hch. apply Hj; [left | done | done].
  - intros col Hcol. apply Hcols. by right.
  - intros col row ch Hcol. apply Hj. by right.
Qed.

Lemma fix_loop_length colBlanks cols d :
  length (foldl (fixStep width height colBlanks) d cols) = length d.
Proof. apply foldl_length. intros. apply fixStep_length. Qed.

(** A blank column whose right neighbour is not blank ends up as a copy of
    that neighbour. *)
Lemma fix_loop_target colBlanks cols d k row ch :
  Z.of_nat (length d) = width * height * 4 →
  NoDup cols → (∀ col, col ∈ cols → 1 ≤ col ≤ width) → k ∈ cols → 1 ≤ k < width →
  at_index colBlanks (k - 1) = true → at_index colBlanks k = false →
  1 ≤ row ≤ height → 0 ≤ ch ≤ 3 →
  rd (foldl (fixStep width height colBlanks) d cols) (pixel_index width row k ch)
  = rd d (pixel_index width row (k + 1) ch).
Proof.
  intros Hlen Hnd Hcols Hk Hkw Hblank Hnext Hrow Hch. revert d Hlen.
  induction cols as [|c0 cols IH]; intros d Hlen; [by apply elem_of_nil in Hk|].
  apply NoDup_cons in Hnd as [Hc0 Hnd]. cbn [foldl].
  assert (Hb0 : 1 ≤ c0 ≤ width) by (apply Hcols; left).
  apply elem_of_cons in Hk as [->|Hk].
  - rewrite fix_loop_outside.
    + rewrite fixStep_never_previous, Hblank, Hnext. cbn [andb negb].
      unfold fixCol. unfold upto.
      apply (fixCol_rows_inside d c0 (c0 + 1)); try done; try lia.
      * apply NoDup_seqZ.
      * intros r Hr. apply elem_of_seqZ in Hr. lia.
      * apply elem_of_seqZ. lia.
    + intros col Hcol. apply Hcols. by right.
    + intros col row' ch' Hcol _ Hch' Heq.
      assert (1 ≤ col ≤ width) by (apply Hcols; by right).
      apply pixel_index_inj in Heq as (_ & Heq & _); [|first [done|lia]..].
      by subst col.
  - rewrite IH; [| done | intros col Hcol; apply Hcols; by right | done
                 | by rewrite fixStep_length].
    rewrite fixStep_never_previous.
    destruct (at_index colBlanks (c0 - 1)) eqn:Hc0b; cbn [andb]; [|done].
    destruct (negb _); [|done].
    apply fixCol_outside; [done|].
    intros row' ch' Hch' Heq.
    apply pixel_index_inj in Heq as (_ & Heq & _); [|first [done|lia]..].
    subst c0. replace (k + 1 - 1) with k in Hc0b by lia. congruence.
Qed.
End Raster.

Lemma at_index_colBlanks width height d col :
  1 ≤ col ≤ width →
  at_index (colIsBlank width height d <$> upto width) (col - 1)
  = colIsBlank width height d col.
Proof.
  intros Hc. unfold at_index, upto. rewrite bool_decide_eq_false_2 by lia.
  rewrite list_lookup_fmap, lookup_seqZ_lt by lia. simpl. f_equal. lia.
Qed.

Lemma transparent_column img col :
  transparent (column img col)
  = colIsBlank (width img) (height img) (data img) (col + 1).
Proof.
  unfold transparent, column, colIsBlank.
  induction (upto (height img)) as [|row rows IH]; [done|].
  rewrite fmap_cons. cbn [forallb snd]. rewrite IH. do 3 f_equal.
  replace (col + 1 - 1) with col by lia. 
  by replace (width img * 4 * (row - 1) + col * 4 + 3)
    with (width img * 4 * (row - 1) + col * 4 + 3) by lia.
Qed.

Lemma column_ext img img' col col' :
  height img' = height img →
  (∀ row ch, 1 ≤ row ≤ height img → 0 ≤ ch ≤ 3 →
     rd (data img') (width img' * 4 * (row - 1) + col' * 4 + ch)
     = rd (data img) (width img * 4 * (row - 1) + col * 4 + ch)) →
  column img' col' = column img col.
Proof.
  intros Hh Hpx. unfold column. rewrite Hh. apply list_fmap_ext.
  intros i row Hrow. apply lookup_seqZ in Hrow as [-> Hi]. 
  assert (Hr : 1 ≤ 1 + Z.of_nat i ≤ height img) by lia.
  pose proof (Hpx _ 0 Hr ltac:(lia)) as H0. rewrite !Z.add_0_r in H0.
  pose proof (Hpx _ 1 Hr ltac:(lia)) as H1.
  pose proof (Hpx _ 2 Hr ltac:(lia)) as H2.
  pose proof (Hpx _ 3 Hr ltac:(lia)) as H3.
  simpl. by rewrite H0, H1, H2, H3.
Qed.

(** X20.  Where seam repair does what it is meant to do: in a raster whose left
    column and last row are not blank, a fully transparent column [k]
    followed by a column that is not blank becomes a copy of that column,
    which itself is left as it was. *)
Theorem blank_column_takes_next_column (img : ImageData) (k : Z) :
  1 ≤ width img →
  Z.of_nat (length (data img)) = width img * height img * 4 →
  leftIsBlank (width img) (height img) (data img) = false →
  bottomIsBlank (width img) (height img) (data img) = false →
  1 ≤ k < width img →
  colIsBlank (width img) (height img) (data img) k = true →
  colIsBlank (width img) (height img) (data img) (k + 1) = false →
  column (checkBoundaryBlank img) (k - 1) = column img k ∧
  column (checkBoundaryBlank img) k = column img k ∧
  transparent (column (checkBoundaryBlank img) (k - 1)) = false.
Proof.
  intros Hw Hlen Hleft Hbottom Hk Hblank Hnext.
  destruct img as [w h d]. cbn [width height data] in *.
  assert (Hrep : repair w h d
                 = foldl (fixStep w h (colIsBlank w h d <$> upto w)) d (upto w)).
  { unfold repair. rewrite Hleft, Hbottom.
    replace (existsb id (colIsBlank w h d <$> upto w)) with true; [done|].
    symmetry. apply existsb_exists. exists true. split; [|done].
    apply list_elem_of_In, list_elem_of_fmap. exists k. split; [done|].
    unfold upto. apply elem_of_seqZ. lia. }
  assert (Hc1 : column (checkBoundaryBlank (Image_Data w h d)) (k - 1)
                = column (Image_Data w h d) k).
  { apply column_ext; [done|]. cbn [checkBoundaryBlank width height data].
    intros row ch Hrow Hch. rewrite Hrep.
    pose proof (fix_loop_target w h Hw (colIsBlank w h d <$> upto w) (upto w) d k row ch)
      as H.
    unfold pixel_index in H. replace (k + 1 - 1) with k in H by lia.
    rewrite <- H;
      [ done | done | apply NoDup_seqZ
      | intros col Hcol; apply elem_of_seqZ in Hcol; lia
      | apply elem_of_seqZ; lia | lia
      | by rewrite at_index_colBlanks by lia
      | replace k with (k + 1 - 1) at 1 by lia; by rewrite at_index_colBlanks by lia
      | done | done ]. }
  split; [exact Hc1|]. split.
  - apply column_ext; [done|]. cbn [checkBoundaryBlank width height data].
    intros row ch Hrow Hch. rewrite Hrep.
    replace (w * 4 * (row - 1) + k * 4 + ch) with (pixel_index w row (k + 1) ch)
      by (unfold pixel_index; lia).
    apply fix_loop_outside; try done.
    + intros col Hcol. apply elem_of_seqZ in Hcol. lia.
    + intros col row' ch' Hcol Hb Hch' Heq. apply elem_of_seqZ in Hcol.
      apply pixel_index_inj in Heq as (_ & Heq & _); [|first [done|lia]..].
      subst col. rewrite at_index_colBlanks in Hb by lia. congruence.
  - rewrite Hc1, transparent_column. exact Hnext.
Qed.
End SeamCopy.


Lemma seamless_raster_unchanged_witness :
  Resampler.checkBoundaryBlank Examples.opaque_input = Examples.opaque_input.
Proof.
  destruct (seamless_raster_unchanged Examples.opaque_input) as (_ & _ & _ & H).
  apply H.
  - simpl. lia.
  - intros col Hcol. simpl in Hcol.
    assert (col = 1 ∨ col = 2) as [-> | ->] by lia; reflexivity.
  - reflexivity.
Defined.

Lemma blank_column_takes_next_column_witness :
  Resampler.column (Resampler.checkBoundaryBlank Examples.seam_input) (3 - 1)
  = Resampler.column Examples.seam_input 3 ∧
  Resampler.column (Resampler.checkBoundaryBlank Examples.seam_input) 3
  = Resampler.column Examples.seam_input 3 ∧
  Resampler.transparent
    (Resampler.column (Resampler.checkBoundaryBlank Examples.seam_input) (3 - 1))
  = false.
Proof.
  apply (blank_column_takes_next_column Examples.seam_input 3).
  - simpl. lia.
  - reflexivity.
  - reflexivity.
  - reflexivity.
  - simpl. lia.
  - reflexivity.
  - reflexivity.
Defined.

Section SamplerFacts.
Import JS Planner Sampler.



End SamplerFacts.

Section CropFacts.
Import JS Planner Sampler.

End CropFacts.

Section PaintFacts.
Import JS Planner Resampler.



End PaintFacts.



(** ** Masks and clipping *)

Section ClipFacts.
Import JS Clip.
Context (geojsonbbox : feature → option Planner.BBOXtype).
Implicit Types (GeoJSONCache : gmap string feature) (maskId : string).

Lemma read_own {A} (o : gmap string A) key a :
  o !! key = Some a → JSObject.read o key = JSObject.Own a.
Proof. intros H. unfold JSObject.read. by rewrite H. Qed.

Lemma read_undefined {A} (o : gmap string A) key :
  key ∉ JSObject.Object_prototype → o !! key = None →
  JSObject.read o key = JSObject.Undefined.
Proof.
  intros Hk H. unfold JSObject.read. rewrite H. by rewrite bool_decide_eq_false_2.
Qed.

Lemma read_inherited {A} (o : gmap string A) key :
  key ∈ JSObject.Object_prototype → o !! key = None →
  JSObject.read o key = JSObject.Inherited.
Proof.
  intros Hk H. unfold JSObject.read. rewrite H. by rewrite bool_decide_eq_true_2.
Qed.

(** X21.  A mask is registered once: [injectMask] of a polygon under a free id
    stores it with its bbox filled in; a second [injectMask] under the same
    id is refused and leaves the first mask in place; after [removeMask] the
    registry is as it was and the id can be used again. *)
Theorem injectMask_registers_once maskId (f g : feature) GeoJSONCache :
  maskId ∉ JSObject.Object_prototype →
  isPolygon (Some f) = true → isPolygon (Some g) = true →
  GeoJSONCache !! maskId = None →
  let f' := checkGeoJSONFeatureBBOX geojsonbbox f in
  let cache1 := (injectMask geojsonbbox maskId (Some f) GeoJSONCache).2 in
  injectMask geojsonbbox maskId (Some f) GeoJSONCache
  = (Ok f', <[maskId := f']> GeoJSONCache) ∧
  injectMask geojsonbbox maskId (Some g) cache1
  = (Err ("the" +:+ maskId +:+ " geojson Already exists"), cache1) ∧
  cache1 !! maskId = Some f' ∧
  removeMask maskId cache1 = GeoJSONCache ∧
  (injectMask geojsonbbox maskId (Some g) (removeMask maskId cache1)).1
  = Ok (checkGeoJSONFeatureBBOX geojsonbbox g).
Proof.
  intros Hown Hf Hg Hfree. cbn zeta.
  assert (H1 : injectMask geojsonbbox maskId (Some f) GeoJSONCache
               = (Ok (checkGeoJSONFeatureBBOX geojsonbbox f),
                  <[maskId := checkGeoJSONFeatureBBOX geojsonbbox f]> GeoJSONCache)).
  { unfold injectMask. by rewrite Hf, (read_undefined GeoJSONCache maskId). }
  rewrite H1. cbn [snd]. split; [done|].
  assert (Hrm : removeMask maskId
                  (<[maskId := checkGeoJSONFeatureBBOX geojsonbbox f]> GeoJSONCache)
                = GeoJSONCache).
  { unfold removeMask. rewrite delete_insert_eq. by apply delete_id. }
  split; [|split; [|split]].
  - unfold injectMask. rewrite Hg.
    by rewrite (read_own _ _ _ (lookup_insert_eq GeoJSONCache maskId _)).
  - apply lookup_insert_eq.
  - exact Hrm.
  - rewrite Hrm. unfold injectMask. by rewrite Hg, (read_undefined GeoJSONCache maskId).
Qed.
End ClipFacts.

Section ClipRun.
Import JS Clip.
Context {Image : Type}.
Context (getCanvas : Z → bool) (getBlankTile : Z → Image).
Context (bboxIntersect : Planner.BBOXtype → Planner.BBOXtype → bool).
Context (cut : feature → Image → Planner.BBOXtype → string → Z → Image).
Context (geojsonbbox : feature → option Planner.BBOXtype).

(** [clip] once its five options are given and a canvas is at hand. *)
Lemma clip_with_options (o : options Image) tile0 box proj size id
    (GeoJSONCache : gmap string feature) :
  tile o = Some tile0 → tileBBOX o = Some box →
  projection o = Some proj → proj ≠ EmptyString →
  tileSize o = Some size → size ≠ 0 →
  maskId o = Some id → id ≠ EmptyString →
  getCanvas size = true →
  clip getCanvas getBlankTile bboxIntersect cut o GeoJSONCache =
  match JSObject.read GeoJSONCache id with
  | JSObject.Undefined => Err ("not find mask by maskId:" +:+ id)
  | JSObject.Inherited => Ok tile0
  | JSObject.Own feature =>
      match feature_bbox feature with
      | None => Ok tile0
      | Some bbox =>
          if bool_decide (coordinates_length feature = 0%nat) then Ok tile0
          else if negb (bboxIntersect bbox box) then Ok (getBlankTile size)
          else Ok (cut feature tile0 box proj size)
      end
  end.
Proof.
  intros Ht Hb Hp Hpne Hs Hsne Hm Hmne Hcanvas.
  unfold clip. rewrite Ht, Hb, Hp, Hs, Hm. cbn [truthy_string truthy_size].
  rewrite !bool_decide_eq_false_2 by done. rewrite Hcanvas. cbn [negb].
  by destruct (JSObject.read GeoJSONCache id).
Qed.

(** X22.  [clip] finds exactly the masks that are registered: with its options
    given and a canvas at hand it rejects with 'not find mask by maskId'
    while the id is free, resolves once a polygon was injected under the id,
    and rejects again after [removeMask]. *)
Theorem clip_sees_registered_masks (o : options Image) tile0 box proj size id f
    (GeoJSONCache : gmap string feature) :
  tile o = Some tile0 → tileBBOX o = Some box →
  projection o = Some proj → proj ≠ EmptyString →
  tileSize o = Some size → size ≠ 0 →
  maskId o = Some id → id ≠ EmptyString →
  getCanvas size = true →
  id ∉ JSObject.Object_prototype → isPolygon (Some f) = true →
  GeoJSONCache !! id = None →
  let cache1 := (injectMask geojsonbbox id (Some f) GeoJSONCache).2 in
  clip getCanvas getBlankTile bboxIntersect cut o GeoJSONCache
  = Err ("not find mask by maskId:" +:+ id) ∧
  (∃ image, clip getCanvas getBlankTile bboxIntersect cut o cache1 = Ok image) ∧
  clip getCanvas getBlankTile bboxIntersect cut o (removeMask id cache1)
  = Err ("not find mask by maskId:" +:+ id).
Proof.
  intros Ht Hb Hp Hpne Hs Hsne Hm Hmne Hcanvas Hown Hf Hfree. cbn zeta.
  rewrite !(clip_with_options o tile0 box proj size id) by done.
  rewrite (read_undefined GeoJSONCache id) by done. split; [done|].
  unfold injectMask. rewrite Hf, !(read_undefined GeoJSONCache id) by done.
  cbn [negb snd].
  unfold removeMask. rewrite delete_insert_eq, delete_id by done.
  rewrite (read_undefined GeoJSONCache id) by done.
  split; [|done].
  rewrite (read_own _ _ _ (lookup_insert_eq GeoJSONCache id _)).
  destruct (feature_bbox _); [|by eauto].
  destruct (bool_decide _); [by eauto|]. destruct (negb _); by eauto.
Qed.

(** X23.  An id that is the name of a member of [Object.prototype] can never
    hold a mask: [injectMask] refuses it whatever is offered and leaves the
    registry alone, and [clip] under such an id does not reject with 'not
    find mask' but resolves with the tile as it came. *)
Theorem inherited_name_is_never_a_mask id (GeoJSONCache : gmap string feature) :
  id ∈ JSObject.Object_prototype →
  (∀ geojson, ∃ message,
     injectMask geojsonbbox id geojson GeoJSONCache = (Err message, GeoJSONCache)) ∧
  (GeoJSONCache !! id = None →
   ∀ (o : options Image) tile0 box proj size,
     tile o = Some tile0 → tileBBOX o = Some box →
     projection o = Some proj → proj ≠ EmptyString →
     tileSize o = Some size → size ≠ 0 →
     maskId o = Some id → getCanvas size = true →
     clip getCanvas getBlankTile bboxIntersect cut o GeoJSONCache = Ok tile0).
Proof.
  intros Hin. split.
  - intros [g|]; [|by eexists]. unfold injectMask.
    destruct (negb (isPolygon (Some g))); [by eexists|].
    unfold JSObject.read. destruct (GeoJSONCache !! id); [by eexists|].
    rewrite bool_decide_eq_true_2 by done. by eexists.
  - intros Hfree o tile0 box proj size Ht Hb Hp Hpne Hs Hsne Hm Hcanvas.
    assert (Hne : id ≠ EmptyString).
    { intros ->. revert Hin. apply (bool_decide_unpack (EmptyString ∉ JSObject.Object_prototype)).
      vm_compute. exact I. }
    rewrite (clip_with_options o tile0 box proj size id) by done.
    by rewrite read_inherited.
Qed.
End ClipRun.

Section PixelFacts.
Import JS Clip.

End PixelFacts.

Lemma own_name_m : "m"%string ∉ JSObject.Object_prototype.
Proof.
  apply (bool_decide_unpack ("m"%string ∉ JSObject.Object_prototype)).
  vm_compute. exact I.
Qed.

Lemma injectMask_registers_once_witness :
  let f' := Clip.checkGeoJSONFeatureBBOX Examples.unit_box Examples.square in
  let cache1 := (Clip.injectMask Examples.unit_box "m" (Some Examples.square) ∅).2 in
  Clip.injectMask Examples.unit_box "m" (Some Examples.square) ∅
  = (Clip.Ok f', <[("m" : string) := f']> ∅) ∧
  Clip.injectMask Examples.unit_box "m" (Some Examples.island) cache1
  = (Clip.Err ("the" +:+ "m" +:+ " geojson Already exists"), cache1) ∧
  cache1 !! ("m" : string) = Some f' ∧
  Clip.removeMask "m" cache1 = ∅ ∧
  (Clip.injectMask Examples.unit_box "m" (Some Examples.island)
     (Clip.removeMask "m" cache1)).1
  = Clip.Ok (Clip.checkGeoJSONFeatureBBOX Examples.unit_box Examples.island).
Proof.
  apply (injectMask_registers_once Examples.unit_box "m" Examples.square Examples.island ∅).
  - apply own_name_m.
  - reflexivity.
  - reflexivity.
  - apply lookup_empty.
Defined.

Lemma clip_sees_registered_masks_witness :
  let cache1 := (Clip.injectMask Examples.unit_box "m" (Some Examples.square) ∅).2 in
  Examples.toy_clip (Examples.clip_request "m") ∅
  = Clip.Err ("not find mask by maskId:" +:+ "m") ∧
  (∃ image, Examples.toy_clip (Examples.clip_request "m") cache1 = Clip.Ok image) ∧
  Examples.toy_clip (Examples.clip_request "m") (Clip.removeMask "m" cache1)
  = Clip.Err ("not find mask by maskId:" +:+ "m").
Proof.
  apply (clip_sees_registered_masks (λ _, true) (λ _, 0) (λ _ _, true)
           (λ _ image _ _ _, image + 1) Examples.unit_box
           (Examples.clip_request "m") 7
           (JS.of_Z 0, JS.of_Z 0, JS.of_Z 2, JS.of_Z 2) "EPSG:4326" 256 "m"
           Examples.square ∅).
  - reflexivity.
  - reflexivity.
  - reflexivity.
  - discriminate.
  - reflexivity.
  - discriminate.
  - reflexivity.
  - discriminate.
  - reflexivity.
  - apply own_name_m.
  - reflexivity.
  - apply lookup_empty.
Defined.

Lemma inherited_name_is_never_a_mask_witness :
  (∃ message,
     Clip.injectMask Examples.unit_box "toString" (Some Examples.square) ∅
     = (Clip.Err message, ∅)) ∧
  Examples.toy_clip (Examples.clip_request "toString") ∅ = Clip.Ok 7.
Proof.
  destruct (inherited_name_is_never_a_mask (λ _, true) (λ _, 0) (λ _ _, true)
              (λ _ image _ _ _, image + 1) Examples.unit_box "toString" ∅)
    as [H1 H2].
  { apply (bool_decide_unpack ("toString"%string ∈ JSObject.Object_prototype)).
    vm_compute. exact I. }
  split; [apply H1|].
  apply (H2 (lookup_empty _) (Examples.clip_request "toString") 7
            (JS.of_Z 0, JS.of_Z 0, JS.of_Z 2, JS.of_Z 2) "EPSG:4326" 256).
  - reflexivity.
  - reflexivity.
  - reflexivity.
  - discriminate.
  - reflexivity.
  - discriminate.
  - reflexivity.
  - reflexivity.
Defined.


Section RingFacts.
Import JS Planner Clip.

Lemma running_min xs a :
  ∃ a', foldl (λ m x, Math_min (Fin x) m) (Fin a) xs = Fin a' ∧
        (a' <= a)%Q ∧ (∀ x, x ∈ xs → (a' <= x)%Q) ∧
        ((a' == a)%Q ∨ ∃ x, x ∈ xs ∧ (a' == x)%Q).
Proof.
  revert a. induction xs as [|x xs IH]; intros a.
  - exists a. cbn [foldl]. split; [done|]. split; [lra|].
    split; [intros x Hx; by apply elem_of_nil in Hx | left; lra].
  - cbn [foldl]. rewrite Math_min_Fin.
    set (a1 := if Qle_bool x a then x else a).
    assert (Ha1 : (a1 <= a)%Q ∧ (a1 <= x)%Q ∧ ((a1 == a)%Q ∨ (a1 == x)%Q)).
    { subst a1. destruct (Qle_bool x a) eqn:E;
        [apply Qle_bool_iff in E | apply Qle_bool_false in E];
        (split; [lra|split; [lra|]]); [right|left]; lra. }
    destruct (IH a1) as (a' & Hf & Hle & Hall & Hatt).
    exists a'. split; [exact Hf|]. split; [lra|]. split.
    + intros z Hz. apply elem_of_cons in Hz as [->|Hz]; [lra | by apply Hall].
    + destruct Hatt as [Heq|(z & Hz & Heq)].
      * destruct Ha1 as (_ & _ & [E|E]); [left; lra|].
        right. exists x. split; [left | lra].
      * right. exists z. split; [by right | done].
Qed.

Lemma running_max xs a :
  ∃ a', foldl (λ m x, Math_max (Fin x) m) (Fin a) xs = Fin a' ∧
        (a <= a')%Q ∧ (∀ x, x ∈ xs → (x <= a')%Q) ∧
        ((a' == a)%Q ∨ ∃ x, x ∈ xs ∧ (a' == x)%Q).
Proof.
  revert a. induction xs as [|x xs IH]; intros a.
  - exists a. cbn [foldl]. split; [done|]. split; [lra|].
    split; [intros x Hx; by apply elem_of_nil in Hx | left; lra].
  - cbn [foldl]. rewrite Math_max_Fin.
    set (a1 := if Qle_bool a x then x else a).
    assert (Ha1 : (a <= a1)%Q ∧ (x <= a1)%Q ∧ ((a1 == a)%Q ∨ (a1 == x)%Q)).
    { subst a1. destruct (Qle_bool a x) eqn:E;
        [apply Qle_bool_iff in E | apply Qle_bool_false in E];
        (split; [lra|split; [lra|]]); [right|left]; lra. }
    destruct (IH a1) as (a' & Hf & Hle & Hall & Hatt).
    exists a'. split; [exact Hf|]. split; [lra|]. split.
    + intros z Hz. apply elem_of_cons in Hz as [->|Hz]; [lra | by apply Hall].
    + destruct Hatt as [Heq|(z & Hz & Heq)].
      * destruct Ha1 as (_ & _ & [E|E]); [left; lra|].
        right. exists x. split; [left | lra].
      * right. exists z. split; [by right | done].
Qed.

Lemma finite_points_repr ps :
  Forall finite_point ps → ∃ qs : list (Q * Q), ps = (λ q, (Fin q.1, Fin q.2)) <$> qs.
Proof.
  induction 1 as [|p ps (x & y & ->) _ (qs & ->)]; [by exists []|].
  by exists ((x, y) :: qs).
Qed.

Lemma ring_box_components (qs : list (Q * Q)) m1 M1 m2 M2 :
  foldl (λ '(minx, maxx, miny, maxy) '(x, y),
           (Math_min x minx, Math_max x maxx, Math_min y miny, Math_max y maxy))
        (m1, M1, m2, M2) ((λ q, (Fin q.1, Fin q.2)) <$> qs)
  = (foldl (λ m x, Math_min (Fin x) m) m1 qs.*1,
     foldl (λ m x, Math_max (Fin x) m) M1 qs.*1,
     foldl (λ m x, Math_min (Fin x) m) m2 qs.*2,
     foldl (λ m x, Math_max (Fin x) m) M2 qs.*2).
Proof.
  revert m1 M1 m2 M2. induction qs as [|[x y] qs IH]; intros; [done|].
  rewrite !fmap_cons. cbn [foldl fst snd]. apply IH.
Qed.

(** A side of the box of a ring has no extent exactly when all coordinates
    agree. *)
Lemma side_has_extent x0 xs :
  (∃ a c, foldl (λ m x, Math_min (Fin x) m) (Fin x0) xs = Fin a ∧
          foldl (λ m x, Math_max (Fin x) m) (Fin x0) xs = Fin c ∧
          (strict_ne (Fin a) (Fin c) = true ↔
           ∃ u v, u ∈ x0 :: xs ∧ v ∈ x0 :: xs ∧ ¬ (u == v)%Q)).
Proof.
  destruct (running_min xs x0) as (a & Ha & Hale & Hamin & Haatt).
  destruct (running_max xs x0) as (c & Hc & Hcle & Hcmax & Hcatt).
  exists a, c. split; [done|]. split; [done|].
  assert (Hin : ∀ u, u ∈ x0 :: xs → (a <= u)%Q ∧ (u <= c)%Q).
  { intros u Hu. apply elem_of_cons in Hu as [->|Hu]; [lra|].
    split; [by apply Hamin | by apply Hcmax]. }
  assert (Ha' : ∃ u, u ∈ x0 :: xs ∧ (a == u)%Q).
  { destruct Haatt as [E|(u & Hu & E)]; [exists x0; split; [left|done]|].
    exists u. split; [by right | done]. }
  assert (Hc' : ∃ u, u ∈ x0 :: xs ∧ (c == u)%Q).
  { destruct Hcatt as [E|(u & Hu & E)]; [exists x0; split; [left|done]|].
    exists u. split; [by right | done]. }
  cbn [strict_ne]. rewrite negb_true_iff. split.
  - intros Hne. destruct Ha' as (u & Hu & Eu), Hc' as (v & Hv & Ev).
    exists u, v. split; [done|]. split; [done|]. intros E.
    assert (Hac : (a == c)%Q) by lra. apply Qeq_bool_iff in Hac. congruence.
  - intros (u & v & Hu & Hv & Hne). apply not_true_is_false. intros E.
    apply Qeq_bool_iff in E. apply Hin in Hu, Hv. apply Hne. lra.
Qed.

(** X27.  [validateClipRing] keeps a ring exactly when it has two points that
    differ in x and two points that differ in y: an empty ring, a single
    point and a ring squeezed onto a horizontal or vertical line are
    dropped. *)
Theorem validateClipRing_drops_flat_rings (ring : list point) :
  Forall finite_point ring →
  validateClipRing ring = true ↔
  (∃ x y x' y', (Fin x, Fin y) ∈ ring ∧ (Fin x', Fin y') ∈ ring ∧ ¬ (x == x')%Q) ∧
  (∃ x y x' y', (Fin x, Fin y) ∈ ring ∧ (Fin x', Fin y') ∈ ring ∧ ¬ (y == y')%Q).
Proof.
  intros Hfin. destruct (finite_points_repr ring Hfin) as (qs & ->).
  assert (Hmem : ∀ x y, (Fin x, Fin y) ∈ (λ q, (Fin q.1, Fin q.2)) <$> qs ↔ (x, y) ∈ qs).
  { intros x y. rewrite list_elem_of_fmap. split.
    - intros ([x' y'] & [= -> ->] & Hin). done.
    - intros Hin. by exists (x, y). }
  destruct qs as [|[x0 y0] qs].
  { cbn. split; [done|]. intros [(x & y & _ & _ & H & _) _]. by apply elem_of_nil in H. }
  unfold validateClipRing. rewrite fmap_cons. cbn [foldl fst snd].
  change (Math_min (Fin x0) Infinity) with (Fin x0).
  change (Math_max (Fin x0) (neg Infinity)) with (Fin x0).
  change (Math_min (Fin y0) Infinity) with (Fin y0).
  change (Math_max (Fin y0) (neg Infinity)) with (Fin y0).
  rewrite ring_box_components.
  destruct (side_has_extent x0 qs.*1) as (a & c & -> & -> & Hx).
  destruct (side_has_extent y0 qs.*2) as (b & d & -> & -> & Hy).
  rewrite andb_true_iff, Hx, Hy.
  assert (Hfst : ∀ u, u ∈ x0 :: qs.*1 ↔ ∃ v, (u, v) ∈ (x0, y0) :: qs).
  { intros u. change (x0 :: qs.*1) with (((x0, y0) :: qs).*1).
    rewrite list_elem_of_fmap. split.
    - intros ([u' v] & -> & Hin). by exists v.
    - intros (v & Hin). by exists (u, v). }
  assert (Hsnd : ∀ v, v ∈ y0 :: qs.*2 ↔ ∃ u, (u, v) ∈ (x0, y0) :: qs).
  { intros v. change (y0 :: qs.*2) with (((x0, y0) :: qs).*2).
    rewrite list_elem_of_fmap. split.
    - intros ([u v'] & -> & Hin). by exists u.
    - intros (u & Hin). by exists (u, v). }
  change ((Fin x0, Fin y0) :: ((λ q, (Fin q.1, Fin q.2)) <$> qs))
    with ((λ q : Q * Q, (Fin q.1, Fin q.2)) <$> ((x0, y0) :: qs)).
  split.
  - intros [(u & u' & Hu & Hu' & Hne) (v & v' & Hv & Hv' & Hne')].
    apply Hfst in Hu as (yu & Hu), Hu' as (yu' & Hu').
    apply Hsnd in Hv as (xv & Hv), Hv' as (xv' & Hv').
    split.
    + exists u, yu, u', yu'. by rewrite !Hmem.
    + exists xv, v, xv', v'. by rewrite !Hmem.
  - intros [(x & y & x' & y' & H1 & H2 & Hne) (x2 & y2 & x2' & y2' & H3 & H4 & Hne')].
    rewrite Hmem in H1, H2, H3, H4. split.
    + exists x, x'. rewrite !Hfst. eauto.
    + exists y2, y2'. rewrite !Hsnd. eauto.
Qed.
End RingFacts.

Lemma validateClipRing_drops_flat_rings_witness :
  Clip.validateClipRing [(JS.of_Z 0, JS.of_Z 0); (JS.of_Z 1, JS.of_Z 1)] = true ↔
  (∃ x y x' y',
     (JS.Fin x, JS.Fin y) ∈ [(JS.of_Z 0, JS.of_Z 0); (JS.of_Z 1, JS.of_Z 1)] ∧
     (JS.Fin x', JS.Fin y') ∈ [(JS.of_Z 0, JS.of_Z 0); (JS.of_Z 1, JS.of_Z 1)] ∧
     ¬ (x == x')%Q) ∧
  (∃ x y x' y',
     (JS.Fin x, JS.Fin y) ∈ [(JS.of_Z 0, JS.of_Z 0); (JS.of_Z 1, JS.of_Z 1)] ∧
     (JS.Fin x', JS.Fin y') ∈ [(JS.of_Z 0, JS.of_Z 0); (JS.of_Z 1, JS.of_Z 1)] ∧
     ¬ (y == y')%Q).
Proof.
  apply (validateClipRing_drops_flat_rings
           [(JS.of_Z 0, JS.of_Z 0); (JS.of_Z 1, JS.of_Z 1)]).
  repeat constructor; unfold Planner.finite_point, JS.of_Z; eauto.
Defined.
